(** * github-tree: a shallow embedding of [github-tree.go]

    The program resolves its inputs (owner, repo, path, maxDepth) from a
    settings file and command-line flags, writes them back, and then walks
    the GitHub Contents API recursively, printing a tree.

    Modelling choices.
    - Go [string] is a byte string: Rocq [string]; the box-drawing glyphs
      are the UTF-8 bytes of the source literals.
    - Go [int] is taken to be 64 bits wide: a [Z] with the wrap-around of
      [level+1] written out ([int_add]).
    - [panic] is a result, not an exception: a run ends [Returned] or
      [Panicked e]; what was printed or requested before stays in the trace.
    - The outside world (working directory, settings file, environment,
      HTTP endpoint) is a record [World]; the file's bytes are identified
      with the struct that [encoding/json] decodes from them or encodes
      into them ([encoding/json] gives back every valid UTF-8 string and
      every [int] it has written; flag values that are not valid UTF-8 are
      outside the model). *)

From Stdlib Require Import ZArith List String Ascii Bool Lia.
Import ListNotations.
Open Scope string_scope.
Open Scope Z_scope.

(** ** Machine integers *)

Definition min_int : Z := - 2 ^ 63.
Definition max_int : Z := 2 ^ 63 - 1.

Definition in_int (z : Z) : Prop := min_int <= z <= max_int.

(** Two's-complement wrap-around of a 64-bit [int]. *)
Definition wrap_int (z : Z) : Z := (z + 2 ^ 63) mod 2 ^ 64 - 2 ^ 63.

(** Go's [a + b] on [int]. *)
Definition int_add (a b : Z) : Z := wrap_int (a + b).

(** ** Data *)

(** [type File struct { Name, Type string }] *)
Record File : Type := mkFile { Name : string; Type_ : string }.

(** The anonymous struct [{Owner, Repo, Path string; MaxDepth int}] that is
    marshalled to and unmarshalled from [github-tree-inputs.txt]. *)
Record Inputs : Type := mkInputs {
  Owner : string;
  Repo : string;
  Path : string;
  MaxDepth : Z
}.

(** The package-level flag variables after [flag.Parse()]. *)
Record Flags : Type := mkFlags {
  ownerFlag : string;
  repoFlag : string;
  pathFlag : string;
  maxDepthFlag : Z
}.

(** Every way the program panics. [json.MarshalIndent] cannot fail on a
    struct of strings and an int, so it has no constructor. *)
Inductive fatal : Type :=
| ErrGetwd            (* "failed to get current directory" *)
| ErrReadInputs       (* "failed to read inputs from file" *)
| ErrParseInputs      (* "failed to parse inputs from file" *)
| ErrEmptyOwnerRepo   (* "The 'owner' and 'repo' fields ... cannot be empty" *)
| ErrWriteInputs      (* "failed to write ... inputs to file" *)
| ErrNoToken          (* "GitHub access token not found in environment" *)
| ErrNewRequest       (* http.NewRequest rejected the URL *)
| ErrTransport        (* client.Do failed *)
| ErrReadBody         (* io.ReadAll failed *)
| ErrDecodeBody.      (* the body is not a JSON array of File objects *)

(** How a run of [fetchFilesAndFolders] ends. [OutOfFuel] belongs to the
    model only: the recursion was cut before the Go code would return. *)
Inductive status : Type :=
| Returned
| Panicked (e : fatal)
| OutOfFuel.

(** What the program does that the outside can see, in order. *)
Inductive event : Type :=
| Req (url authorization : string)   (* one GET handed to client.Do *)
| Out (s : string).                  (* one write to standard output *)

(** ** The outside world *)

(** [github-tree-inputs.txt] as [os.Stat], [os.ReadFile] and
    [json.Unmarshal] see it. *)
Inductive file_state : Type :=
| Missing                 (* os.Stat fails *)
| Unreadable              (* os.Stat succeeds, os.ReadFile fails *)
| Malformed               (* json.Unmarshal fails *)
| Holds (s : Inputs).     (* json.Unmarshal yields [s] *)

(** What one GET gives back. *)
Inductive response : Type :=
| TransportError
| BodyReadError
| BodyNotFiles
| BodyFiles (files : list File).

Record World : Type := mkWorld {
  getwd_ok : bool;
  inputs_file : file_state;
  write_ok : bool;
  (** [os.Getenv "GITHUB_ACCESS_TOKEN"]: empty when unset. *)
  access_token : string;
  (** Whether [http.NewRequest] accepts the URL. *)
  new_request_ok : string -> bool;
  (** The answer to the [n]-th request (counted from 0), given its URL and
      its Authorization header. *)
  api : nat -> string -> string -> response
}.

(** ** Tree renderer *)

Definition getFilePrefix (isLast : bool) : string :=
  if isLast then "└── " else "├── ".

Definition getDirPrefix (isLast : bool) : string :=
  if isLast then "└── " else "├── ".

Definition getIndentPrefix (isLast : bool) : string :=
  if isLast then "    " else "│   ".

Definition newline : string := String (ascii_of_nat 10) EmptyString.

(** ** Runs: emitted events and a final status

    A [Run] receives the number of requests issued so far and yields the
    events it emits and how it ends. *)

Definition Run : Type := nat -> list event * status.

Fixpoint count_req (tr : list event) : nat :=
  match tr with
  | [] => 0%nat
  | Req _ _ :: tr' => S (count_req tr')
  | Out _ :: tr' => count_req tr'
  end.

Definition skip : Run := fun _ => ([], Returned).

Definition panic (e : fatal) : Run := fun _ => ([], Panicked e).

Definition out_of_fuel : Run := fun _ => ([], OutOfFuel).

(** [fmt.Printf "%s%s"] and [fmt.Println] each make one write. *)
Definition print (s : string) : Run := fun _ => ([Out s], Returned).

(** Sequencing: the second run starts only if the first one returned. *)
Definition andthen (c1 c2 : Run) : Run :=
  fun n =>
    let (t1, s1) := c1 n in
    match s1 with
    | Returned =>
        let (t2, s2) := c2 (n + count_req t1)%nat in ((t1 ++ t2)%list, s2)
    | _ => (t1, s1)
    end.

Notation "c1 ;; c2" := (andthen c1 c2) (at level 61, right associativity).

(** [client.Do(req)]: the request is logged, the world answers. *)
Definition do_request (w : World) (url authorization : string)
    (k : response -> Run) : Run :=
  fun n =>
    let (t, s) := k (api w n url authorization) (S n) in
    (Req url authorization :: t, s).

(** ** Tree fetcher *)

Definition contents_url (owner repo path : string) : string :=
  "https://api.github.com/repos/" ++ owner ++ "/" ++ repo ++ "/contents/" ++ path.

Section RangeLoop.
(** The recursive call, abstracted: sub-path and sub-indent to a run. *)
Variable rec : string -> string -> Run.
Variables path indent : string.
(** [len(files)] of the whole slice. *)
Variable len : Z.

(** [for i, f := range files { ... }], from index [i] on. *)
Fixpoint range_loop (i : Z) (files : list File) : Run :=
  match files with
  | [] => skip
  | f :: rest =>
      let isLast := i =? len - 1 in
      (if (Type_ f =? "file")%string then
         print (indent ++ getFilePrefix isLast) ;;
         print (Name f ++ newline)
       else if (Type_ f =? "dir")%string then
         print (indent ++ getDirPrefix isLast) ;;
         print (Name f ++ newline) ;;
         rec (path ++ "/" ++ Name f) (indent ++ getIndentPrefix isLast)
       else skip) ;;
      range_loop (i + 1) rest
  end.
End RangeLoop.

Section Fetch.
Variable w : World.

Fixpoint fetch_fuel (fuel : nat)
    (accessToken owner repo path indent : string) (level maxDepth : Z)
    {struct fuel} : Run :=
  if level >? maxDepth then skip
  else
    match fuel with
    | O => out_of_fuel
    | S fuel' =>
        let url := contents_url owner repo path in
        if negb (new_request_ok w url) then panic ErrNewRequest
        else
          do_request w url ("Bearer " ++ accessToken) (fun resp =>
            match resp with
            | TransportError => panic ErrTransport
            | BodyReadError => panic ErrReadBody
            | BodyNotFiles => panic ErrDecodeBody
            | BodyFiles files =>
                range_loop
                  (fun p ind =>
                     fetch_fuel fuel' accessToken owner repo p ind
                       (int_add level 1) maxDepth)
                  path indent (Z.of_nat (List.length files)) 0 files
            end)
    end.

(** What a delivered response leads to, [fuel] being left for the
    recursive calls: the part of [fetch_fuel] after [client.Do]. *)
Definition on_response (fuel : nat)
    (accessToken owner repo path indent : string) (level maxDepth : Z)
    (resp : response) : Run :=
  match resp with
  | TransportError => panic ErrTransport
  | BodyReadError => panic ErrReadBody
  | BodyNotFiles => panic ErrDecodeBody
  | BodyFiles files =>
      range_loop
        (fun p ind =>
           fetch_fuel fuel accessToken owner repo p ind
             (int_add level 1) maxDepth)
        path indent (Z.of_nat (List.length files)) 0 files
  end.

(** The recursion depth the guard [level > maxDepth] allows. *)
Definition depth_fuel (level maxDepth : Z) : nat :=
  Z.to_nat (maxDepth - level + 1).

Definition fetchFilesAndFolders
    (accessToken owner repo path indent : string) (level maxDepth : Z) : Run :=
  fetch_fuel (depth_fuel level maxDepth)
    accessToken owner repo path indent level maxDepth.
End Fetch.

(** ** Config resolver and [main] *)

(** [readInputsFromFile]: the four fields, or the panic. *)
Definition readInputsFromFile (f : file_state)
    : fatal + (string * string * string * Z) :=
  match f with
  | Missing => inl ErrReadInputs
  | Unreadable => inl ErrReadInputs
  | Malformed => inl ErrParseInputs
  | Holds s => inr (Owner s, Repo s, Path s, MaxDepth s)
  end.

(** [updateInputsInFile]: the file after the call and the panic, if any.
    [os.WriteFile] creates or truncates; a failed write is modelled as
    leaving the file as it was. *)
Definition updateInputsInFile (w : World) (f : file_state)
    (owner repo path : string) (maxDepth : Z) : file_state * option fatal :=
  let newInputs :=
    {| Owner := owner; Repo := repo; Path := path; MaxDepth := maxDepth |} in
  if write_ok w then (Holds newInputs, None)
  else (f, Some ErrWriteInputs).

(** [os.Stat] returned a nil error. *)
Definition stat_ok (f : file_state) : bool :=
  match f with
  | Missing => false
  | _ => true
  end.

(** The arguments of the one call of [fetchFilesAndFolders] in [main]. *)
Record FetchCall : Type := mkCall {
  c_accessToken : string;
  c_owner : string;
  c_repo : string;
  c_path : string;
  c_indent : string;
  c_level : Z;
  c_maxDepth : Z
}.

(** [main] up to, and without, its call of [fetchFilesAndFolders]: the
    settings file as it is left, and either the panic or the call to make. *)
Definition main_until_fetch (fl : Flags) (w : World)
    : file_state * (fatal + FetchCall) :=
  let f := inputs_file w in
  if negb (getwd_ok w) then (f, inl ErrGetwd)
  else if stat_ok f then
    match readInputsFromFile f with
    | inl e => (f, inl e)
    | inr (currentOwner, currentRepo, currentPath, currentMaxDepth) =>
        if ((currentOwner =? "") || (currentRepo =? ""))%string
        then (f, inl ErrEmptyOwnerRepo)
        else
          let currentMaxDepth :=
            if currentMaxDepth <? 1 then 1 else currentMaxDepth in
          let currentOwner :=
            if negb (ownerFlag fl =? "")%string then ownerFlag fl
            else currentOwner in
          let currentRepo :=
            if negb (repoFlag fl =? "")%string then repoFlag fl
            else currentRepo in
          let currentPath :=
            if negb (pathFlag fl =? "")%string then pathFlag fl
            else currentPath in
          let currentMaxDepth := maxDepthFlag fl in
          match updateInputsInFile w f currentOwner currentRepo currentPath
                  currentMaxDepth with
          | (f', Some e) => (f', inl e)
          | (f', None) =>
              let accessToken := access_token w in
              if (accessToken =? "")%string then (f', inl ErrNoToken)
              else
                (f', inr (mkCall accessToken currentOwner currentRepo
                            currentPath "" 1 currentMaxDepth))
          end
    end
  else
    let maxDepthFlag' := if maxDepthFlag fl =? 0 then 1 else maxDepthFlag fl in
    let newInputs :=
      {| Owner := ownerFlag fl; Repo := repoFlag fl; Path := pathFlag fl;
         MaxDepth := maxDepthFlag' |} in
    if write_ok w then
      let f' := Holds newInputs in
      let accessToken := access_token w in
      if (accessToken =? "")%string then (f', inl ErrNoToken)
      else
        (f', inr (mkCall accessToken (ownerFlag fl) (repoFlag fl) (pathFlag fl)
                    "" 1 maxDepthFlag'))
    else (f, inl ErrWriteInputs).

Definition run_call (w : World) (c : FetchCall) : Run :=
  fetchFilesAndFolders w (c_accessToken c) (c_owner c) (c_repo c) (c_path c)
    (c_indent c) (c_level c) (c_maxDepth c).

(** What a whole run leaves behind. An [exit_status] of [OutOfFuel] says
    that the walk was still going at the depth the guard allows; [main_ends]
    shows that this needs a [maxDepth] flag equal to the largest [int]. *)
Record Outcome : Type := mkOutcome {
  file_after : file_state;
  trace : list event;
  exit_status : status
}.

Definition main (fl : Flags) (w : World) : Outcome :=
  match main_until_fetch fl w with
  | (f, inl e) => mkOutcome f [] (Panicked e)
  | (f, inr c) =>
      let (t, s) := run_call w c 0%nat in mkOutcome f t s
  end.

(** ** Observations on traces *)

(** Standard output: the writes, concatenated. *)
Fixpoint stdout (tr : list event) : string :=
  match tr with
  | [] => ""
  | Out s :: tr' => s ++ stdout tr'
  | Req _ _ :: tr' => stdout tr'
  end.

(** The URLs requested, in order. *)
Fixpoint requests (tr : list event) : list string :=
  match tr with
  | [] => []
  | Req url _ :: tr' => url :: requests tr'
  | Out _ :: tr' => requests tr'
  end.

(** ** The walk in the words of the specification *)

(** "Output line = indent + branch glyph + entry name, newline-terminated". *)
Definition render_line (indent : string) (isLast : bool) (name : string)
    : string :=
  indent ++ getFilePrefix isLast ++ name ++ newline.

(** One rendered line, written as the code writes it: prefix, then name. *)
Definition emit_line (indent : string) (isLast : bool) (name : string) : Run :=
  print (indent ++ getFilePrefix isLast) ;; print (name ++ newline).

Definition is_final (rest : list File) : bool :=
  match rest with
  | [] => true
  | _ :: _ => false
  end.

Section Walk.
Variable rec : string -> string -> Run.
Variables path indent : string.
(** Whether an entry is rendered as the last one, from the entries that
    follow it. *)
Variable last_of : list File -> bool.

(** Entries in the order given; a file gives one line; a directory gives one
    line and then its whole subtree, before the next sibling; anything else
    gives nothing. *)
Fixpoint walk_with (entries : list File) : Run :=
  match entries with
  | [] => skip
  | e :: rest =>
      let isLast := last_of rest in
      (if (Type_ e =? "file")%string then emit_line indent isLast (Name e)
       else if (Type_ e =? "dir")%string then
         emit_line indent isLast (Name e) ;;
         rec (path ++ "/" ++ Name e) (indent ++ getIndentPrefix isLast)
       else skip) ;;
      walk_with rest
  end.
End Walk.

(** "[isLast] by position in the list (last element = true)". *)
Definition walk_entries (rec : string -> string -> Run) (path indent : string)
    : list File -> Run :=
  walk_with rec path indent is_final.

(** The same walk with no entry rendered as the last one. *)
Definition walk_never_last (rec : string -> string -> Run)
    (path indent : string) : list File -> Run :=
  walk_with rec path indent (fun _ => false).

(** A line of the tree, as far as the renderer is concerned: the
    last-sibling flags of the directories entered since the walk began,
    outermost first, the entry's own flag, and its name. *)
Definition tree_line : Type := (list bool * bool * string)%type.

Fixpoint cat (l : list string) : string :=
  match l with
  | [] => ""
  | s :: l' => s ++ cat l'
  end.

(** The line as rendered by a walk that began with [indent]. *)
Definition render_tree_line (indent : string) (l : tree_line) : string :=
  let '(above, isLast, name) := l in
  render_line (indent ++ cat (map getIndentPrefix above)) isLast name.

Definition render_tree (indent : string) (ls : list tree_line) : string :=
  cat (map (render_tree_line indent) ls).

(** ** The resolver in the words of the specification

    These follow the text of the specification, not the code; the theorems
    below compare them with [main_until_fetch]. *)

(** "Overlay any non-empty flag values onto the stored ones". *)
Definition overlay (flag stored : string) : string :=
  if (flag =? "")%string then stored else flag.

(** The settings a run resolves to: the stored ones overlaid with the
    flags, "maxDepth unconditionally set to the flag value", when the file
    exists; "built directly from flags (maxDepth defaulted to 1 if the flag
    was left at its zero value)" when it does not. *)
Definition resolved_settings (fl : Flags) (f : file_state) : option Inputs :=
  match f with
  | Missing =>
      Some {| Owner := ownerFlag fl; Repo := repoFlag fl; Path := pathFlag fl;
              MaxDepth := if maxDepthFlag fl =? 0 then 1 else maxDepthFlag fl |}
  | Holds s =>
      Some {| Owner := overlay (ownerFlag fl) (Owner s);
              Repo := overlay (repoFlag fl) (Repo s);
              Path := overlay (pathFlag fl) (Path s);
              MaxDepth := maxDepthFlag fl |}
  | Unreadable => None
  | Malformed => None
  end.

(** The panics of the resolver: those before the access token is looked up. *)
Definition resolver_error (e : fatal) : bool :=
  match e with
  | ErrGetwd | ErrReadInputs | ErrParseInputs
  | ErrEmptyOwnerRepo | ErrWriteInputs => true
  | _ => false
  end.

Definition resolver_fails (fl : Flags) (w : World) : bool :=
  match snd (main_until_fetch fl w) with
  | inl e => resolver_error e
  | inr _ => false
  end.

(** The world a later run finds: the same, but for the settings file. *)
Definition with_file (w : World) (f : file_state) : World :=
  mkWorld (getwd_ok w) f (write_ok w) (access_token w) (new_request_ok w)
    (api w).

(** ** Example worlds *)

(** No flag given: every string flag empty, [maxDepth] at its default. *)
Definition no_flags : Flags := mkFlags "" "" "" 1.

(** A first run in an empty directory, with a token; the endpoint answers
    a request for [repos///contents/] with a JSON object, not an array. *)
Definition fresh_world : World :=
  mkWorld true Missing true "t" (fun _ => true) (fun _ _ _ => BodyNotFiles).

(** A settings file whose owner is empty. *)
Definition ownerless_world : World :=
  mkWorld true (Holds (mkInputs "" "r" "" 1)) true "t" (fun _ => true)
    (fun _ _ _ => BodyFiles []).

(** A well-formed settings file, with and without a token. *)
Definition stored_inputs : Inputs := mkInputs "o" "r" "src" 3.

Definition stored_world : World :=
  mkWorld true (Holds stored_inputs) true "t" (fun _ => true)
    (fun _ _ _ => BodyFiles []).

Definition tokenless_world : World :=
  mkWorld true Missing true "" (fun _ => true) (fun _ _ _ => BodyFiles []).

(** The well-formed settings file, found by a run without a token. *)
Definition tokenless_stored_world : World :=
  mkWorld true (Holds stored_inputs) true "" (fun _ => true)
    (fun _ _ _ => BodyFiles []).

(** A settings file for [o/r], depth 1, and an endpoint that lists a
    directory [A] and a file [B]. *)
Definition listing_world : World :=
  mkWorld true (Holds (mkInputs "o" "r" "" 1)) true "t" (fun _ => true)
    (fun _ _ _ => BodyFiles [mkFile "A" "dir"; mkFile "B" "file"]).

(** The same root listing, with a file [C] inside [A]. The path of [A]
    is ["" + "/" + "A"], so its URL ends in [contents//A]. *)
Definition nested_world : World :=
  mkWorld true (Holds (mkInputs "o" "r" "" 1)) true "t" (fun _ => true)
    (fun _ url _ =>
       if (url =? "https://api.github.com/repos/o/r/contents/")%string
       then BodyFiles [mkFile "A" "dir"; mkFile "B" "file"]
       else if (url =? "https://api.github.com/repos/o/r/contents//A")%string
       then BodyFiles [mkFile "C" "file"]
       else BodyNotFiles).

(** An endpoint that lists a file, a directory and, last, a submodule. *)
Definition submodule_world : World :=
  mkWorld true (Holds (mkInputs "o" "r" "" 1)) true "t" (fun _ => true)
    (fun _ _ _ =>
       BodyFiles [mkFile "f" "file"; mkFile "d" "dir"; mkFile "m" "submodule"]).

(** An endpoint that answers every request with one directory. *)
Definition deep_world : World :=
  mkWorld true Missing true "t" (fun _ => true)
    (fun _ _ _ => BodyFiles [mkFile "d" "dir"]).

(** ** Further observations *)

(** A settings file that passes the test of lines 55-57. *)
Definition accepted (f : file_state) : bool :=
  match f with
  | Holds s => negb (Owner s =? "")%string && negb (Repo s =? "")%string
  | _ => false
  end.

(** The path [fetchFilesAndFolders] reaches from [path] by entering the
    directories [names], outermost first: [path+"/"+name], repeated. *)
Definition descend (path : string) (names : list string) : string :=
  fold_left (fun p name => p ++ "/" ++ name) names path.

(** The panics of the HTTP exchange once the request has been sent. *)
Definition exchange_error (e : fatal) : bool :=
  match e with
  | ErrTransport | ErrReadBody | ErrDecodeBody => true
  | _ => false
  end.

(** The entries the loop prints: files and directories. *)
Definition is_listed (e : File) : bool :=
  ((Type_ e =? "file") || (Type_ e =? "dir"))%string.

(** What the loop prints for [files] when no directory is entered. *)
Fixpoint listing (indent : string) (files : list File) : string :=
  match files with
  | [] => ""
  | e :: rest =>
      (if is_listed e then render_line indent (is_final rest) (Name e) else "")
      ++ listing indent rest
  end.





(** The first write of a line that lies below at most [bound] directories
    of a walk that began with [indent]: the indent, at most [bound]
    continuation glyphs, and the branch glyph. *)
Definition line_prefix (indent : string) (bound : nat) (s : string) : Prop :=
  exists above isLast,
    (List.length above <= bound)%nat /\
    s = indent ++ cat (map getIndentPrefix above) ++ getFilePrefix isLast.

(** A trace whose writes come in pairs, a line prefix of nesting at most
    [bound] and then a name with its newline, with requests in between. *)
Inductive nested_within (indent : string) (bound : nat) : list event -> Prop :=
| nested_nil : nested_within indent bound []
| nested_req url authorization tr :
    nested_within indent bound tr ->
    nested_within indent bound (Req url authorization :: tr)
| nested_line s name tr :
    line_prefix indent bound s ->
    nested_within indent bound tr ->
    nested_within indent bound (Out s :: Out (name ++ newline) :: tr).

(** The last thing the run did was to send a request. *)
Definition ends_with_request (tr : list event) : Prop :=
  exists tr' url authorization, tr = (tr' ++ [Req url authorization])%list.

(** The number of writes to standard output; a line takes two. *)
Fixpoint count_out (tr : list event) : nat :=
  match tr with
  | [] => 0%nat
  | Out _ :: tr' => S (count_out tr')
  | Req _ _ :: tr' => count_out tr'
  end.

(** A settings file that is there but is not JSON. *)
Definition corrupt_world : World :=
  mkWorld true Malformed true "t" (fun _ => true) (fun _ _ _ => BodyFiles []).

(** * Properties *)

(** ** Integers *)

Lemma int_add_small (a : Z) :
  min_int <= a < max_int -> int_add a 1 = a + 1.
Proof.
  unfold int_add, wrap_int, min_int, max_int. intros H.
  rewrite Z.mod_small; lia.
Qed.

Lemma int_add_in_int (a b : Z) : in_int (int_add a b).
Proof.
  unfold in_int, int_add, wrap_int, min_int, max_int.
  pose proof (Z.mod_pos_bound (a + b + 2 ^ 63) (2 ^ 64) ltac:(lia)). lia.
Qed.

(** ** Runs *)

Lemma andthen_returned (c1 c2 : Run) n t1 :
  c1 n = (t1, Returned) ->
  (c1 ;; c2) n =
    ((t1 ++ fst (c2 (n + count_req t1)%nat))%list,
     snd (c2 (n + count_req t1)%nat)).
Proof.
  intros H. unfold andthen. rewrite H.
  destruct (c2 (n + count_req t1)%nat); reflexivity.
Qed.

Lemma andthen_stopped (c1 c2 : Run) n t1 s1 :
  c1 n = (t1, s1) -> s1 <> Returned -> (c1 ;; c2) n = (t1, s1).
Proof.
  intros H Hs. unfold andthen. rewrite H.
  destruct s1; congruence.
Qed.

Lemma skip_andthen (c : Run) n : (skip ;; c) n = c n.
Proof.
  unfold andthen, skip. simpl. rewrite Nat.add_0_r.
  destruct (c n); reflexivity.
Qed.

Lemma print_andthen (s : string) (c : Run) n :
  (print s ;; c) n = (Out s :: fst (c n), snd (c n)).
Proof.
  unfold andthen, print. simpl. rewrite Nat.add_0_r.
  destruct (c n); reflexivity.
Qed.

Lemma andthen_status_not (c1 c2 : Run) n (s : status) :
  s <> Returned ->
  snd (c1 n) <> s -> (forall m, snd (c2 m) <> s) -> snd ((c1 ;; c2) n) <> s.
Proof.
  intros Hs H1 H2. unfold andthen.
  destruct (c1 n) as [t1 s1] eqn:E1. simpl in H1.
  destruct s1; simpl; try assumption.
  specialize (H2 (n + count_req t1)%nat).
  destruct (c2 (n + count_req t1)%nat); assumption.
Qed.

(** Replacing the parts of a sequence by runs that agree with them wherever
    the whole does not run out of fuel. *)
Lemma andthen_mono (c1 c2 d1 d2 : Run) n :
  (snd (c1 n) <> OutOfFuel -> d1 n = c1 n) ->
  (forall m, snd (c2 m) <> OutOfFuel -> d2 m = c2 m) ->
  snd ((c1 ;; c2) n) <> OutOfFuel ->
  (d1 ;; d2) n = (c1 ;; c2) n.
Proof.
  intros H1 H2. unfold andthen.
  destruct (c1 n) as [t1 s1] eqn:E1. simpl in H1.
  destruct s1; simpl; intros H.
  - rewrite H1 by discriminate.
    destruct (c2 (n + count_req t1)%nat) as [t2 s2] eqn:E2. simpl in H.
    rewrite H2; rewrite E2; [reflexivity | assumption].
  - rewrite H1 by discriminate. reflexivity.
  - congruence.
Qed.

(** ** The guard *)

Lemma gtb_true (a b : Z) : a > b -> (a >? b) = true.
Proof. intros H. rewrite Z.gtb_ltb. apply Z.ltb_lt. lia. Qed.

Lemma gtb_false (a b : Z) : a <= b -> (a >? b) = false.
Proof. intros H. rewrite Z.gtb_ltb. apply Z.ltb_ge. lia. Qed.

Lemma gtb_false_inv (a b : Z) : (a >? b) = false -> a <= b.
Proof. rewrite Z.gtb_ltb. intros H. apply Z.ltb_ge in H. lia. Qed.

Lemma do_request_eq (w : World) url a (k : response -> Run) n :
  do_request w url a k n =
  (Req url a :: fst (k (api w n url a) (S n)), snd (k (api w n url a) (S n))).
Proof.
  unfold do_request. destruct (k (api w n url a) (S n)); reflexivity.
Qed.

(** ** The loop over one response *)

Section RangeLoopFacts.
Variables (path indent : string) (len : Z).

Lemma range_loop_nil rec i n :
  range_loop rec path indent len i [] n = ([], Returned).
Proof. reflexivity. Qed.

(** An entry that is neither a file nor a directory is stepped over. *)
Lemma range_loop_other rec i f rest n :
  (Type_ f =? "file")%string = false ->
  (Type_ f =? "dir")%string = false ->
  range_loop rec path indent len i (f :: rest) n =
  range_loop rec path indent len (i + 1) rest n.
Proof.
  intros Hf Hd. simpl. rewrite Hf, Hd. apply skip_andthen.
Qed.

Lemma range_loop_mono rec rec' :
  (forall p ind n, snd (rec p ind n) <> OutOfFuel -> rec' p ind n = rec p ind n) ->
  forall files i n,
    snd (range_loop rec path indent len i files n) <> OutOfFuel ->
    range_loop rec' path indent len i files n =
    range_loop rec path indent len i files n.
Proof.
  intros Hrec files. induction files as [|f rest IH]; intros i n H.
  - reflexivity.
  - simpl in *. revert H. apply andthen_mono.
    + destruct (Type_ f =? "file")%string; [reflexivity|].
      destruct (Type_ f =? "dir")%string; [|reflexivity].
      apply andthen_mono; [reflexivity|]. intros m.
      apply andthen_mono; [reflexivity|]. intros k. apply Hrec.
    + intros m. apply IH.
Qed.

(** The loop ends in a way other than returning only if a recursive call
    does. *)
Lemma range_loop_status_not rec (s : status) :
  s <> Returned ->
  (forall p ind n, snd (rec p ind n) <> s) ->
  forall files i n, snd (range_loop rec path indent len i files n) <> s.
Proof.
  intros Hs Hrec files. induction files as [|f rest IH]; intros i n.
  - simpl. congruence.
  - simpl. apply andthen_status_not; [assumption| |intros m; apply IH].
    destruct (Type_ f =? "file")%string.
    + rewrite print_andthen. simpl. congruence.
    + destruct (Type_ f =? "dir")%string; [|simpl; congruence].
      rewrite print_andthen. simpl. rewrite print_andthen. simpl. apply Hrec.
Qed.
End RangeLoopFacts.

(** ** Fuel *)

Section FetchFacts.
Variable w : World.
Variables accessToken owner repo : string.
Variable maxDepth : Z.

Lemma fetch_fuel_O path indent level :
  fetch_fuel w O accessToken owner repo path indent level maxDepth =
  if level >? maxDepth then skip else out_of_fuel.
Proof. reflexivity. Qed.

Lemma fetch_fuel_S fuel path indent level :
  fetch_fuel w (S fuel) accessToken owner repo path indent level maxDepth =
  if level >? maxDepth then skip
  else if negb (new_request_ok w (contents_url owner repo path))
  then panic ErrNewRequest
  else do_request w (contents_url owner repo path) ("Bearer " ++ accessToken)
         (on_response w fuel accessToken owner repo path indent level maxDepth).
Proof. reflexivity. Qed.

Lemma fetch_fuel_guard fuel path indent level n :
  level > maxDepth ->
  fetch_fuel w fuel accessToken owner repo path indent level maxDepth n =
  ([], Returned).
Proof.
  intros H. destruct fuel; [rewrite fetch_fuel_O | rewrite fetch_fuel_S];
    rewrite (gtb_true _ _ H); reflexivity.
Qed.

Lemma fetch_fuel_step fuel path indent level n :
  level <= maxDepth ->
  new_request_ok w (contents_url owner repo path) = true ->
  fetch_fuel w (S fuel) accessToken owner repo path indent level maxDepth n =
  do_request w (contents_url owner repo path) ("Bearer " ++ accessToken)
    (on_response w fuel accessToken owner repo path indent level maxDepth) n.
Proof.
  intros Hl Hu. rewrite fetch_fuel_S, (gtb_false _ _ Hl), Hu. reflexivity.
Qed.

(** More fuel does not change a run that did not run out of it. *)
Lemma fetch_fuel_mono fuel :
  forall fuel' path indent level n,
    (fuel <= fuel')%nat ->
    snd (fetch_fuel w fuel accessToken owner repo path indent level maxDepth n)
      <> OutOfFuel ->
    fetch_fuel w fuel' accessToken owner repo path indent level maxDepth n =
    fetch_fuel w fuel accessToken owner repo path indent level maxDepth n.
Proof.
  induction fuel as [|fuel IH]; intros fuel' path indent level n Hle H.
  - destruct (Z_gt_le_dec level maxDepth) as [Hg|Hg].
    + rewrite !fetch_fuel_guard by assumption. reflexivity.
    + exfalso. apply H. rewrite fetch_fuel_O, (gtb_false _ _ Hg). reflexivity.
  - destruct fuel' as [|fuel']; [lia|].
    rewrite !fetch_fuel_S. rewrite fetch_fuel_S in H.
    destruct (level >? maxDepth); [reflexivity|].
    destruct (negb (new_request_ok w (contents_url owner repo path)));
      [reflexivity|].
    rewrite !do_request_eq. rewrite do_request_eq in H. cbn [snd] in H.
    generalize dependent
      (api w n (contents_url owner repo path) ("Bearer " ++ accessToken)).
    intros resp H.
    assert (E : on_response w fuel' accessToken owner repo path indent level
                  maxDepth resp (S n) =
                on_response w fuel accessToken owner repo path indent level
                  maxDepth resp (S n)).
    { destruct resp; try reflexivity.
      unfold on_response in *. apply range_loop_mono; [|exact H].
      intros p ind m. apply IH. lia. }
    rewrite E. reflexivity.
Qed.

(** Below the largest [int], the guard stops the recursion in time. *)
Lemma fetch_fuel_enough fuel :
  forall path indent level n,
    in_int level -> maxDepth < max_int ->
    (depth_fuel level maxDepth <= fuel)%nat ->
    snd (fetch_fuel w fuel accessToken owner repo path indent level maxDepth n)
      <> OutOfFuel.
Proof.
  induction fuel as [|fuel IH]; intros path indent level n Hi Hm Hf.
  - rewrite fetch_fuel_guard; [simpl; discriminate|].
    unfold depth_fuel in Hf. lia.
  - rewrite fetch_fuel_S.
    destruct (level >? maxDepth) eqn:G; [simpl; discriminate|].
    destruct (negb (new_request_ok w (contents_url owner repo path)));
      [simpl; discriminate|].
    rewrite do_request_eq. cbn [snd].
    generalize
      (api w n (contents_url owner repo path) ("Bearer " ++ accessToken)).
    intros resp. destruct resp; try (simpl; discriminate).
    unfold on_response.
    apply range_loop_status_not; [discriminate|]. intros p ind m.
    apply gtb_false_inv in G.
    unfold in_int in Hi.
    rewrite int_add_small by lia.
    apply IH; [unfold in_int, min_int, max_int in *; lia | assumption |].
    unfold depth_fuel in *. lia.
Qed.
End FetchFacts.

(** ** Depth bound (C5) *)

Lemma andthen_stops (c1 c2 : Run) n s :
  snd (c1 n) = s -> s <> Returned -> snd ((c1 ;; c2) n) = s.
Proof.
  intros H Hs. destruct (c1 n) as [t1 s1] eqn:E. simpl in H. subst s1.
  rewrite (andthen_stopped _ _ _ _ _ E Hs). reflexivity.
Qed.

(** With [maxDepth] the largest [int], no level exceeds it: against an
    endpoint that always answers with a directory the recursion goes on. *)
Lemma deep_world_runs_on fuel :
  forall path indent level n,
    in_int level ->
    snd (fetch_fuel deep_world fuel "t" "o" "r" path indent level max_int n)
    = OutOfFuel.
Proof.
  induction fuel as [|fuel IH]; intros path indent level n Hi.
  - rewrite fetch_fuel_O, gtb_false by apply Hi. reflexivity.
  - rewrite fetch_fuel_S, gtb_false by apply Hi.
    cbn [deep_world new_request_ok negb].
    rewrite do_request_eq. cbn [snd deep_world api on_response].
    cbn [range_loop Type_ Name String.eqb Ascii.eqb Bool.eqb].
    apply andthen_stops; [|discriminate].
    rewrite print_andthen. cbn [snd].
    rewrite print_andthen. cbn [snd].
    apply IH, int_add_in_int.
Qed.

(** C5, as amended: a call with [level > maxDepth] returns at once, with no
    request and no output; below the bound every recursive call is made at
    [level + 1] with the same [maxDepth]; and for every [maxDepth] from 1 up
    to, but not including, the largest [int], the recursion ends: the depth
    the guard allows is fuel enough, and more fuel changes nothing. *)
Theorem fetch_stops_at_depth_bound
    (w : World) (accessToken owner repo : string) (maxDepth : Z)
    (Hmax : 1 <= maxDepth < max_int) :
  (forall fuel path indent level n,
      level > maxDepth ->
      fetch_fuel w fuel accessToken owner repo path indent level maxDepth n
      = ([], Returned)) /\
  (forall fuel path indent level files,
      in_int level -> level <= maxDepth ->
      on_response w fuel accessToken owner repo path indent level maxDepth
        (BodyFiles files)
      = range_loop
          (fun p ind =>
             fetch_fuel w fuel accessToken owner repo p ind (level + 1) maxDepth)
          path indent (Z.of_nat (List.length files)) 0 files) /\
  (forall path indent level n,
      in_int level ->
      snd (fetchFilesAndFolders w accessToken owner repo path indent level
             maxDepth n) <> OutOfFuel /\
      forall fuel,
        (depth_fuel level maxDepth <= fuel)%nat ->
        fetch_fuel w fuel accessToken owner repo path indent level maxDepth n
        = fetchFilesAndFolders w accessToken owner repo path indent level
            maxDepth n).
Proof.
  split; [|split].
  - intros fuel path indent level n H. apply fetch_fuel_guard, H.
  - intros fuel path indent level files Hi Hl. unfold on_response.
    rewrite int_add_small by (unfold in_int in Hi; lia). reflexivity.
  - intros path indent level n Hi.
    assert (E : snd (fetchFilesAndFolders w accessToken owner repo path indent
                       level maxDepth n) <> OutOfFuel).
    { unfold fetchFilesAndFolders.
      apply fetch_fuel_enough; [assumption | lia | lia]. }
    split; [exact E|].
    intros fuel Hf. unfold fetchFilesAndFolders in *.
    apply fetch_fuel_mono; assumption.
Qed.

Lemma fetch_stops_at_depth_bound_witness :
  1 <= 2 < max_int /\
  fetch_fuel deep_world 0 "t" "o" "r" "" "" 3 2 0%nat = ([], Returned) /\
  snd (fetchFilesAndFolders deep_world "t" "o" "r" "" "" 1 2 0%nat) <> OutOfFuel.
Proof.
  assert (H : 1 <= 2 < max_int) by (unfold max_int; lia).
  split; [exact H|].
  destruct (fetch_stops_at_depth_bound deep_world "t" "o" "r" 2 H)
    as [Hguard [_ Hend]].
  split.
  - apply Hguard. lia.
  - apply Hend. unfold in_int, min_int, max_int. lia.
Defined.

(** C5 as it was stated fails at the largest [int]: for [maxDepth] =
    9223372036854775807 and an endpoint that answers every request with one
    directory, no amount of fuel lets the call from [main] return. *)
Lemma fetch_at_max_int_never_returns :
  ~ (exists fuel,
       snd (fetch_fuel deep_world fuel "t" "o" "r" "" "" 1 max_int 0%nat)
       <> OutOfFuel).
Proof.
  intros [fuel H]. apply H. apply deep_world_runs_on.
  unfold in_int, min_int, max_int. lia.
Qed.

(** ** Config resolver (C1, C2, C3, C4, C10) *)

Lemma overlay_empty_flag (stored : string) : overlay "" stored = stored.
Proof. reflexivity. Qed.

Lemma overlay_nonempty (flag stored : string) :
  stored <> "" -> overlay flag stored <> "".
Proof.
  intros H. unfold overlay.
  destruct (flag =? "")%string eqn:E; [assumption|].
  apply String.eqb_neq in E. assumption.
Qed.

Lemma empty_fields_test (a b : string) :
  ((a =? "") || (b =? ""))%string = true <-> a = "" \/ b = "".
Proof.
  rewrite orb_true_iff, !String.eqb_eq. reflexivity.
Qed.

(** The existing-file branch of [main], the check having passed. *)
Lemma main_until_fetch_stored fl w s :
  getwd_ok w = true -> inputs_file w = Holds s ->
  Owner s <> "" -> Repo s <> "" ->
  main_until_fetch fl w =
  if write_ok w then
    (Holds (mkInputs (overlay (ownerFlag fl) (Owner s))
              (overlay (repoFlag fl) (Repo s))
              (overlay (pathFlag fl) (Path s)) (maxDepthFlag fl)),
     if (access_token w =? "")%string then inl ErrNoToken
     else inr (mkCall (access_token w) (overlay (ownerFlag fl) (Owner s))
                 (overlay (repoFlag fl) (Repo s))
                 (overlay (pathFlag fl) (Path s)) "" 1 (maxDepthFlag fl)))
  else (Holds s, inl ErrWriteInputs).
Proof.
  intros Hg Hf Ho Hr. unfold main_until_fetch, updateInputsInFile, overlay.
  rewrite Hg, Hf. cbn [negb stat_ok readInputsFromFile].
  apply String.eqb_neq in Ho, Hr. rewrite Ho, Hr. cbn [orb].
  destruct (write_ok w); [|reflexivity].
  destruct (ownerFlag fl =? "")%string, (repoFlag fl =? "")%string,
    (pathFlag fl =? "")%string, (access_token w =? "")%string; reflexivity.
Qed.

(** The existing-file branch of [main], the check failing. *)
Lemma main_until_fetch_empty_field fl w s :
  getwd_ok w = true -> inputs_file w = Holds s ->
  Owner s = "" \/ Repo s = "" ->
  main_until_fetch fl w = (Holds s, inl ErrEmptyOwnerRepo).
Proof.
  intros Hg Hf He. unfold main_until_fetch.
  rewrite Hg, Hf. cbn [negb stat_ok readInputsFromFile].
  apply empty_fields_test in He. rewrite He. reflexivity.
Qed.

(** The missing-file branch of [main]. *)
Lemma main_until_fetch_missing fl w :
  getwd_ok w = true -> inputs_file w = Missing ->
  main_until_fetch fl w =
  let d := if maxDepthFlag fl =? 0 then 1 else maxDepthFlag fl in
  if write_ok w then
    (Holds (mkInputs (ownerFlag fl) (repoFlag fl) (pathFlag fl) d),
     if (access_token w =? "")%string then inl ErrNoToken
     else inr (mkCall (access_token w) (ownerFlag fl) (repoFlag fl)
                 (pathFlag fl) "" 1 d))
  else (Missing, inl ErrWriteInputs).
Proof.
  intros Hg Hf. unfold main_until_fetch.
  rewrite Hg, Hf. cbn [negb stat_ok].
  destruct (write_ok w); [|reflexivity].
  destruct (access_token w =? "")%string; reflexivity.
Qed.

(** C1, as amended: when the settings file exists and parses, the run panics
    with the owner/repo message if and only if the stored owner or the stored
    repo is empty, whatever the flags are; and, the file being writable, the
    resolver fails if and only if the stored owner or repo is empty. The
    test is made on what the file holds, before the flags are overlaid. *)
Theorem resolver_fails_iff_stored_field_empty
    (fl : Flags) (w : World) (s : Inputs)
    (Hwd : getwd_ok w = true) (Hfile : inputs_file w = Holds s) :
  (snd (main_until_fetch fl w) = inl ErrEmptyOwnerRepo
     <-> Owner s = "" \/ Repo s = "") /\
  (write_ok w = true ->
     (resolver_fails fl w = true <-> Owner s = "" \/ Repo s = "")).
Proof.
  destruct (string_dec (Owner s) "") as [Ho|Ho];
    [|destruct (string_dec (Repo s) "") as [Hr|Hr]].
  - assert (E := main_until_fetch_empty_field fl w s Hwd Hfile (or_introl Ho)).
    unfold resolver_fails. rewrite E. cbn. intuition.
  - assert (E := main_until_fetch_empty_field fl w s Hwd Hfile (or_intror Hr)).
    unfold resolver_fails. rewrite E. cbn. intuition.
  - assert (E := main_until_fetch_stored fl w s Hwd Hfile Ho Hr).
    unfold resolver_fails. rewrite E.
    split.
    + destruct (write_ok w); cbn [snd].
      * destruct (access_token w =? "")%string;
          split; [discriminate|tauto|discriminate|tauto].
      * split; [discriminate|tauto].
    + intros Hw. rewrite Hw. cbn [snd].
      destruct (access_token w =? "")%string; cbn;
        split; try discriminate; tauto.
Qed.

Lemma resolver_fails_iff_stored_field_empty_witness :
  snd (main_until_fetch (mkFlags "o" "" "" 1) ownerless_world)
    = inl ErrEmptyOwnerRepo /\
  resolver_fails (mkFlags "o" "" "" 1) ownerless_world = true.
Proof.
  destruct (resolver_fails_iff_stored_field_empty (mkFlags "o" "" "" 1)
              ownerless_world (mkInputs "" "r" "" 1) eq_refl eq_refl)
    as [H1 H2].
  split.
  - apply H1. left. reflexivity.
  - apply H2; [reflexivity | left; reflexivity].
Defined.

(** C1 as it was stated fails: with an empty stored owner and the owner flag
    set, owner and repo are non-empty after the overlay, yet the run panics. *)
Lemma resolver_fails_although_overlay_nonempty :
  ~ (resolver_fails (mkFlags "o" "" "" 1) ownerless_world = true <->
     overlay "o" (Owner (mkInputs "" "r" "" 1)) = "" \/
     overlay "" (Repo (mkInputs "" "r" "" 1)) = "").
Proof.
  intros [H _].
  destruct (H eq_refl) as [E|E]; discriminate E.
Qed.

(** In the existing-file branch the guard does its work: a call that is
    made has a non-empty owner and a non-empty repo. *)
Lemma stored_branch_call_has_owner_and_repo fl w f' c :
  stat_ok (inputs_file w) = true ->
  main_until_fetch fl w = (f', inr c) ->
  c_owner c <> "" /\ c_repo c <> "".
Proof.
  intros Hs. unfold main_until_fetch, updateInputsInFile.
  destruct (getwd_ok w); cbn [negb]; [|discriminate].
  rewrite Hs.
  destruct (readInputsFromFile (inputs_file w)) as [e|[[[o r] p] d]];
    [discriminate|].
  destruct (o =? "")%string eqn:Eo; [discriminate|].
  destruct (r =? "")%string eqn:Er; [discriminate|].
  cbn [orb]. destruct (write_ok w); [|discriminate].
  destruct (access_token w =? "")%string; [discriminate|].
  intros H. injection H as _ Hc. subst c. cbn [c_owner c_repo].
  apply String.eqb_neq in Eo, Er.
  split.
  - destruct (ownerFlag fl =? "")%string eqn:E; cbn [negb]; [assumption|].
    apply String.eqb_neq in E. assumption.
  - destruct (repoFlag fl =? "")%string eqn:E; cbn [negb]; [assumption|].
    apply String.eqb_neq in E. assumption.
Qed.

(** C2, at its failing input: no settings file, no flags, a token set. The
    run writes a settings file with empty owner and repo, does not panic
    before the fetch, and sends one GET for [repos///contents/]; the panic
    that ends it comes from decoding the answer. *)
Theorem missing_file_empty_owner_is_fetched :
  main_until_fetch no_flags fresh_world
    = (Holds (mkInputs "" "" "" 1), inr (mkCall "t" "" "" "" "" 1 1)) /\
  main no_flags fresh_world
    = mkOutcome (Holds (mkInputs "" "" "" 1))
        [Req "https://api.github.com/repos///contents/" "Bearer t"]
        (Panicked ErrDecodeBody).
Proof. split; reflexivity. Qed.

(** The file written by that run is one the next run refuses: the program
    breaks the rule it enforces on [github-tree-inputs.txt]. *)
Example first_run_writes_a_file_the_next_run_rejects :
  main no_flags
    (with_file fresh_world (file_after (main no_flags fresh_world)))
  = mkOutcome (Holds (mkInputs "" "" "" 1)) [] (Panicked ErrEmptyOwnerRepo).
Proof. reflexivity. Qed.

(** A run that panicked before the write is not one that got as far as
    the token. *)
Ltac not_written H :=
  let E := fresh in
  let R := fresh in
  intros E; injection E as _ R; subst;
  destruct H as [H|[? H]]; discriminate H.

(** C3, at its failing inputs: with a settings file in place and
    [-maxDepth 0], the depth written back and handed to the fetcher is 0,
    whatever depth the file held: the coercion of lines 59-62 is undone by
    line 74. Without a file the same flag is turned into 1, but a negative
    one is written and used as it is. *)
Theorem maxDepth_flag_zero_is_kept :
  main_until_fetch (mkFlags "" "" "" 0) stored_world
    = (Holds (mkInputs "o" "r" "src" 0), inr (mkCall "t" "o" "r" "src" "" 1 0))
  /\
  main_until_fetch (mkFlags "o" "r" "" 0) fresh_world
    = (Holds (mkInputs "o" "r" "" 1), inr (mkCall "t" "o" "r" "" "" 1 1))
  /\
  main_until_fetch (mkFlags "o" "r" "" (-3)) fresh_world
    = (Holds (mkInputs "o" "r" "" (-3)),
       inr (mkCall "t" "o" "r" "" "" 1 (-3))).
Proof. repeat split. Qed.

(** Where the depth does come out at least 1: on every run that gets as far
    as writing the settings, the depth written is the depth the fetcher is
    called with; it is the flag's value whenever that is at least 1,
    whatever the file held, and it is 1 when there is no file and the flag
    is 0. *)
Theorem resolved_maxDepth_from_flag
    (fl : Flags) (w : World) (f' : file_state) (r : fatal + FetchCall)
    (Hrun : main_until_fetch fl w = (f', r))
    (Hwritten : r = inl ErrNoToken \/ exists c, r = inr c) :
  exists s',
    f' = Holds s' /\
    (forall c, r = inr c -> c_maxDepth c = MaxDepth s' /\ c_level c = 1) /\
    (1 <= maxDepthFlag fl -> MaxDepth s' = maxDepthFlag fl /\ 1 <= MaxDepth s') /\
    (stat_ok (inputs_file w) = false -> maxDepthFlag fl = 0 -> MaxDepth s' = 1).
Proof.
  revert Hrun. unfold main_until_fetch, updateInputsInFile.
  destruct (getwd_ok w); cbn [negb]; [|not_written Hwritten].
  destruct (stat_ok (inputs_file w)) eqn:Hs.
  - destruct (readInputsFromFile (inputs_file w)) as [e|[[[o rp] p] d]] eqn:Hread.
    + destruct (inputs_file w); try discriminate Hread;
        injection Hread as He; subst e; not_written Hwritten.
    + destruct ((o =? "") || (rp =? ""))%string; [not_written Hwritten|].
      destruct (write_ok w); [|not_written Hwritten].
      destruct (access_token w =? "")%string;
        intros H; injection H as Hf Hr; subst f' r;
        eexists; (split; [reflexivity|]); cbn [MaxDepth];
        (split; [intros c Hc; try discriminate Hc;
                 injection Hc as Hc; subst c; split; reflexivity|]);
        (split; [intros; split; [reflexivity|assumption] | discriminate]).
  - destruct (write_ok w); [|not_written Hwritten].
    destruct (access_token w =? "")%string;
      intros H; injection H as Hf Hr; subst f' r;
      eexists; (split; [reflexivity|]); cbn [MaxDepth];
      (split; [intros c Hc; try discriminate Hc;
               injection Hc as Hc; subst c; split; reflexivity|]);
      (split; [intros H1;
               replace (maxDepthFlag fl =? 0) with false
                 by (symmetry; apply Z.eqb_neq; lia);
               split; [reflexivity|assumption]
              | intros _ H0; rewrite H0; reflexivity]).
Qed.

Lemma resolved_maxDepth_from_flag_witness :
  exists s',
    Holds (mkInputs "o" "r" "src" 2) = Holds s' /\
    (forall c, @inr fatal FetchCall (mkCall "t" "o" "r" "src" "" 1 2) = inr c ->
               c_maxDepth c = MaxDepth s' /\ c_level c = 1) /\
    (1 <= 2 -> MaxDepth s' = 2 /\ 1 <= MaxDepth s') /\
    (stat_ok (inputs_file stored_world) = false -> 2 = 0 -> MaxDepth s' = 1).
Proof.
  apply (resolved_maxDepth_from_flag (mkFlags "" "" "" 2) stored_world
           (Holds (mkInputs "o" "r" "src" 2))
           (inr (mkCall "t" "o" "r" "src" "" 1 2))).
  - reflexivity.
  - right. eexists. reflexivity.
Defined.

(** C4: a settings file with non-empty owner and repo, read by a run whose
    owner, repo and path flags are empty, is rewritten with the same owner,
    repo and path, and with the [maxDepth] flag of this run as its depth,
    whatever depth it held; the fetcher is called with the same values. *)
Theorem second_run_keeps_owner_repo_path
    (fl : Flags) (w : World) (s : Inputs)
    (Hwd : getwd_ok w = true) (Hwr : write_ok w = true)
    (Hfile : inputs_file w = Holds s)
    (Ho : Owner s <> "") (Hr : Repo s <> "")
    (Hfo : ownerFlag fl = "") (Hfr : repoFlag fl = "") (Hfp : pathFlag fl = "") :
  fst (main_until_fetch fl w)
    = Holds (mkInputs (Owner s) (Repo s) (Path s) (maxDepthFlag fl)) /\
  (access_token w <> "" ->
   snd (main_until_fetch fl w)
     = inr (mkCall (access_token w) (Owner s) (Repo s) (Path s) "" 1
              (maxDepthFlag fl))).
Proof.
  rewrite (main_until_fetch_stored fl w s Hwd Hfile Ho Hr), Hwr, Hfo, Hfr, Hfp.
  rewrite !overlay_empty_flag. cbn [fst snd].
  split; [reflexivity|].
  intros Ht. apply String.eqb_neq in Ht. rewrite Ht. reflexivity.
Qed.

Lemma second_run_keeps_owner_repo_path_witness :
  fst (main_until_fetch (mkFlags "" "" "" 7) stored_world)
    = Holds (mkInputs "o" "r" "src" 7) /\
  snd (main_until_fetch (mkFlags "" "" "" 7) stored_world)
    = inr (mkCall "t" "o" "r" "src" "" 1 7).
Proof.
  destruct (second_run_keeps_owner_repo_path (mkFlags "" "" "" 7) stored_world
              stored_inputs eq_refl eq_refl eq_refl
              ltac:(discriminate) ltac:(discriminate)
              eq_refl eq_refl eq_refl) as [H1 H2].
  split; [exact H1|]. apply H2. discriminate.
Defined.

(** The fetcher has its own panics; a missing token is not one of them. *)
Lemma fetch_fuel_no_token_panic w fuel :
  forall accessToken owner repo path indent level maxDepth n,
    snd (fetch_fuel w fuel accessToken owner repo path indent level maxDepth n)
    <> Panicked ErrNoToken.
Proof.
  induction fuel as [|fuel IH]; intros.
  - rewrite fetch_fuel_O. destruct (level >? maxDepth); simpl; discriminate.
  - rewrite fetch_fuel_S. destruct (level >? maxDepth); [simpl; discriminate|].
    destruct (negb (new_request_ok w (contents_url owner repo path)));
      [simpl; discriminate|].
    rewrite do_request_eq. cbn [snd].
    generalize
      (api w n (contents_url owner repo path) ("Bearer " ++ accessToken)).
    intros resp. destruct resp; try (simpl; discriminate).
    unfold on_response. apply range_loop_status_not; [discriminate|].
    intros p ind m. apply IH.
Qed.

(** The missing-token panic comes after the write: a run that ends on it
    has written the settings it resolved to [github-tree-inputs.txt] and has
    neither sent a request nor printed anything. *)
Lemma token_panic_comes_after_the_write
    (fl : Flags) (w : World)
    (Habort : exit_status (main fl w) = Panicked ErrNoToken) :
  access_token w = "" /\
  exists s',
    resolved_settings fl (inputs_file w) = Some s' /\
    file_after (main fl w) = Holds s' /\
    trace (main fl w) = [].
Proof.
  revert Habort. unfold main.
  destruct (main_until_fetch fl w) as [f' [e|c]] eqn:E.
  2:{ unfold run_call.
      destruct (fetchFilesAndFolders w (c_accessToken c) (c_owner c) (c_repo c)
                  (c_path c) (c_indent c) (c_level c) (c_maxDepth c) 0%nat)
        as [t st] eqn:F.
      cbn [exit_status]. intros H. exfalso.
      apply (fetch_fuel_no_token_panic w
               (depth_fuel (c_level c) (c_maxDepth c)) (c_accessToken c)
               (c_owner c) (c_repo c) (c_path c) (c_indent c) (c_level c)
               (c_maxDepth c) 0%nat).
      unfold fetchFilesAndFolders in F. rewrite F. exact H. }
  cbn [exit_status file_after trace]. intros H. injection H as He. subst e.
  revert E. unfold main_until_fetch, updateInputsInFile.
  destruct (getwd_ok w); cbn [negb]; [|discriminate].
  destruct (inputs_file w) as [| | |s] eqn:Hf; cbn [stat_ok readInputsFromFile];
    try discriminate.
  - destruct (write_ok w); [|discriminate].
    destruct (access_token w =? "")%string eqn:Et; [|discriminate].
    intros H. injection H as H. subst f'. apply String.eqb_eq in Et.
    split; [assumption|]. eexists. cbn [resolved_settings].
    split; [reflexivity|]. split; reflexivity.
  - destruct ((Owner s =? "") || (Repo s =? ""))%string; [discriminate|].
    destruct (write_ok w); [|discriminate].
    destruct (access_token w =? "")%string eqn:Et; [|discriminate].
    intros H. injection H as H. subst f'. apply String.eqb_eq in Et.
    split; [assumption|]. eexists. cbn [resolved_settings]. unfold overlay.
    split; [|split; reflexivity].
    destruct (ownerFlag fl =? "")%string, (repoFlag fl =? "")%string,
      (pathFlag fl =? "")%string; reflexivity.
Qed.

(** C10: without [GITHUB_ACCESS_TOKEN], a run that finds no settings file,
    or one with non-empty owner and repo, and can write, creates or
    overwrites [github-tree-inputs.txt] with the settings it resolved, and
    only then panics on the missing token, having sent no request and
    printed nothing. *)
Theorem settings_written_before_token_check
    (fl : Flags) (w : World)
    (Hwd : getwd_ok w = true) (Hwr : write_ok w = true)
    (Htoken : access_token w = "")
    (Hfile : inputs_file w = Missing \/
             exists s, inputs_file w = Holds s /\ Owner s <> "" /\ Repo s <> "") :
  exists s',
    resolved_settings fl (inputs_file w) = Some s' /\
    main fl w = mkOutcome (Holds s') [] (Panicked ErrNoToken).
Proof.
  unfold main. destruct Hfile as [Hf|(s & Hf & Ho & Hr)].
  - rewrite (main_until_fetch_missing fl w Hwd Hf), Hwr, Htoken, Hf.
    cbv zeta. cbn [resolved_settings String.eqb].
    eexists. split; reflexivity.
  - rewrite (main_until_fetch_stored fl w s Hwd Hf Ho Hr), Hwr, Htoken, Hf.
    cbn [resolved_settings String.eqb].
    eexists. split; reflexivity.
Qed.

Lemma settings_written_before_token_check_witness :
  main (mkFlags "o" "r" "" 1) tokenless_world
    = mkOutcome (Holds (mkInputs "o" "r" "" 1)) [] (Panicked ErrNoToken) /\
  main (mkFlags "" "" "lib" 7) tokenless_stored_world
    = mkOutcome (Holds (mkInputs "o" "r" "lib" 7)) [] (Panicked ErrNoToken).
Proof.
  assert (Hstored : inputs_file tokenless_stored_world = Missing \/
            exists s, inputs_file tokenless_stored_world = Holds s /\
                      Owner s <> "" /\ Repo s <> "").
  { right. exists stored_inputs.
    split; [reflexivity|]. split; discriminate. }
  split.
  - destruct (settings_written_before_token_check (mkFlags "o" "r" "" 1)
                tokenless_world eq_refl eq_refl eq_refl (or_introl eq_refl))
      as (s' & Hs & Hm).
    cbn in Hs. injection Hs as Hs. subst s'. exact Hm.
  - destruct (settings_written_before_token_check (mkFlags "" "" "lib" 7)
                tokenless_stored_world eq_refl eq_refl eq_refl Hstored)
      as (s' & Hs & Hm).
    cbn in Hs. injection Hs as Hs. subst s'. exact Hm.
Defined.

(** ** The walk (C6, C7, C8, C9) *)

Lemma andthen_skip (c : Run) n : (c ;; skip) n = c n.
Proof.
  unfold andthen, skip. destruct (c n) as [t s].
  destruct s; [rewrite app_nil_r|..]; reflexivity.
Qed.

Lemma andthen_ext (c1 c2 d1 d2 : Run) n :
  c1 n = d1 n -> (forall m, c2 m = d2 m) -> (c1 ;; c2) n = (d1 ;; d2) n.
Proof.
  intros H1 H2. unfold andthen. rewrite H1.
  destruct (d1 n) as [t s]. destruct s; [rewrite H2|..]; reflexivity.
Qed.

Lemma emit_line_eq indent isLast name n :
  emit_line indent isLast name n =
  ([Out (indent ++ getFilePrefix isLast); Out (name ++ newline)], Returned).
Proof. reflexivity. Qed.

Lemma emit_line_andthen indent isLast name (c : Run) n :
  (emit_line indent isLast name ;; c) n =
  (Out (indent ++ getFilePrefix isLast) :: Out (name ++ newline) :: fst (c n),
   snd (c n)).
Proof.
  rewrite (andthen_returned _ _ _ _ (emit_line_eq indent isLast name n)).
  cbn [count_req app]. rewrite Nat.add_0_r. reflexivity.
Qed.

Lemma string_app_assoc (a b c : string) : (a ++ b) ++ c = a ++ b ++ c.
Proof.
  induction a as [|x a IH]; simpl; [reflexivity|]. rewrite IH. reflexivity.
Qed.

Lemma stdout_app (t1 t2 : list event) :
  stdout (t1 ++ t2) = stdout t1 ++ stdout t2.
Proof.
  induction t1 as [|[u a|s] t1 IH]; simpl; [reflexivity|assumption|].
  rewrite IH, string_app_assoc. reflexivity.
Qed.

(** The two writes of an entry make up its rendered line. *)
Lemma stdout_emit_line indent isLast name n :
  stdout (fst (emit_line indent isLast name n)) = render_line indent isLast name.
Proof.
  rewrite emit_line_eq. unfold render_line. simpl.
  rewrite string_app_assoc.
  assert (E : forall s, s ++ "" = s).
  { induction s as [|x s IH]; simpl; [|rewrite IH]; reflexivity. }
  rewrite E. reflexivity.
Qed.

Section WalkFacts.
Variable rec : string -> string -> Run.
Variables path indent : string.

(** One step of the loop of the code, in terms of [emit_line]. *)
Lemma range_loop_cons len i f rest n :
  range_loop rec path indent len i (f :: rest) n =
  ((if (Type_ f =? "file")%string then emit_line indent (i =? len - 1) (Name f)
    else if (Type_ f =? "dir")%string then
      emit_line indent (i =? len - 1) (Name f) ;;
      rec (path ++ "/" ++ Name f) (indent ++ getIndentPrefix (i =? len - 1))
    else skip) ;;
   range_loop rec path indent len (i + 1) rest) n.
Proof.
  cbn [range_loop]. apply andthen_ext; [|reflexivity].
  destruct (Type_ f =? "file")%string; [reflexivity|].
  destruct (Type_ f =? "dir")%string; [|reflexivity].
  rewrite emit_line_andthen, !print_andthen. reflexivity.
Qed.

(** The index test of the code picks out the final element, given that
    [len] is the length of the whole slice. *)
Lemma range_loop_is_walk len files :
  forall i n,
    len = i + Z.of_nat (List.length files) ->
    range_loop rec path indent len i files n =
    walk_entries rec path indent files n.
Proof.
  induction files as [|f rest IH]; intros i n Hlen; [reflexivity|].
  rewrite range_loop_cons. unfold walk_entries. cbn [walk_with].
  cbn [List.length] in Hlen.
  assert (E : (i =? len - 1) = is_final rest).
  { destruct rest as [|g rest]; cbn [is_final List.length] in *.
    - apply Z.eqb_eq. lia.
    - apply Z.eqb_neq. lia. }
  rewrite E. apply andthen_ext; [reflexivity|].
  intros m. apply IH. lia.
Qed.

(** Before the end of the slice no index passes the test. *)
Lemma range_loop_never_last len files :
  forall i n,
    i + Z.of_nat (List.length files) < len ->
    range_loop rec path indent len i files n =
    walk_never_last rec path indent files n.
Proof.
  induction files as [|f rest IH]; intros i n Hlen; [reflexivity|].
  rewrite range_loop_cons. unfold walk_never_last. cbn [walk_with].
  cbn [List.length] in Hlen.
  replace (i =? len - 1) with false by (symmetry; apply Z.eqb_neq; lia).
  apply andthen_ext; [reflexivity|].
  intros m. apply IH. lia.
Qed.

(** A final entry that is neither a file nor a directory adds nothing to the
    run, though it is counted in [len]. *)
Lemma range_loop_other_at_end len init l :
  (Type_ l =? "file")%string = false ->
  (Type_ l =? "dir")%string = false ->
  forall i n,
    range_loop rec path indent len i (init ++ [l]) n =
    range_loop rec path indent len i init n.
Proof.
  intros Hf Hd. induction init as [|f rest IH]; intros i n.
  - cbn [app]. rewrite range_loop_other by assumption. reflexivity.
  - rewrite <- app_comm_cons, !range_loop_cons.
    apply andthen_ext; [reflexivity|]. intros m. apply IH.
Qed.
End WalkFacts.

(** [main] calls the fetcher with an empty indent, at level 1. *)
Lemma main_call_indent_level fl w f' c :
  main_until_fetch fl w = (f', inr c) -> c_indent c = "" /\ c_level c = 1.
Proof.
  unfold main_until_fetch, updateInputsInFile.
  destruct (getwd_ok w); cbn [negb]; [|discriminate].
  destruct (stat_ok (inputs_file w)).
  - destruct (readInputsFromFile (inputs_file w)) as [e|[[[o r] p] d]];
      [discriminate|].
    destruct ((o =? "") || (r =? ""))%string; [discriminate|].
    destruct (write_ok w); [|discriminate].
    destruct (access_token w =? "")%string; [discriminate|].
    intros H. injection H as _ H. subst c. split; reflexivity.
  - destruct (write_ok w); [|discriminate].
    destruct (access_token w =? "")%string; [discriminate|].
    intros H. injection H as _ H. subst c. split; reflexivity.
Qed.

(** C6: a run whose resolved path is empty and whose resolved depth is 1,
    against an endpoint that answers the one request with a directory [A]
    and a file [B], sends exactly that request and prints exactly the lines
    [├── A] and [└── B]: the recursive call for [A] is stopped by the
    depth guard. *)
Theorem depth_one_prints_two_lines
    (fl : Flags) (w : World) (f' : file_state) (c : FetchCall)
    (Hrun : main_until_fetch fl w = (f', inr c))
    (Hpath : c_path c = "") (Hdepth : c_maxDepth c = 1)
    (Hurl : new_request_ok w (contents_url (c_owner c) (c_repo c) "") = true)
    (Hresp : api w 0 (contents_url (c_owner c) (c_repo c) "")
               ("Bearer " ++ c_accessToken c)
             = BodyFiles [mkFile "A" "dir"; mkFile "B" "file"]) :
  main fl w
    = mkOutcome f'
        [Req (contents_url (c_owner c) (c_repo c) "")
           ("Bearer " ++ c_accessToken c);
         Out "├── "; Out ("A" ++ newline); Out "└── "; Out ("B" ++ newline)]
        Returned /\
  stdout (trace (main fl w)) = "├── A" ++ newline ++ "└── B" ++ newline /\
  requests (trace (main fl w)) = [contents_url (c_owner c) (c_repo c) ""].
Proof.
  assert (E : main fl w
    = mkOutcome f'
        [Req (contents_url (c_owner c) (c_repo c) "")
           ("Bearer " ++ c_accessToken c);
         Out "├── "; Out ("A" ++ newline); Out "└── "; Out ("B" ++ newline)]
        Returned).
  { unfold main. rewrite Hrun. unfold run_call, fetchFilesAndFolders.
    destruct (main_call_indent_level _ _ _ _ Hrun) as [Hi Hl].
    rewrite Hi, Hl, Hpath, Hdepth.
    change (depth_fuel 1 1) with 1%nat.
    rewrite fetch_fuel_step by (assumption || lia).
    rewrite do_request_eq, Hresp. unfold on_response.
    rewrite range_loop_is_walk by reflexivity.
    unfold walk_entries. cbn [walk_with Type_ Name is_final].
    change ("dir" =? "file")%string with false.
    change ("dir" =? "dir")%string with true.
    change ("file" =? "file")%string with true.
    cbv iota.
    assert (G : forall p ind m,
               fetch_fuel w 0 (c_accessToken c) (c_owner c) (c_repo c) p ind
                 (int_add 1 1) 1 m = ([], Returned)).
    { intros. apply fetch_fuel_guard. reflexivity. }
    rewrite (andthen_returned
               (emit_line "" false "A" ;;
                fetch_fuel w 0 (c_accessToken c) (c_owner c) (c_repo c)
                  ("" ++ "/" ++ "A") ("" ++ getIndentPrefix false)
                  (int_add 1 1) 1)
               _ 1%nat [Out "├── "; Out ("A" ++ newline)]).
    2:{ rewrite emit_line_andthen, G. reflexivity. }
    rewrite andthen_skip, emit_line_eq. reflexivity. }
  rewrite E. cbn [trace]. split; [reflexivity|]. split; reflexivity.
Qed.

Lemma depth_one_prints_two_lines_witness :
  stdout (trace (main no_flags listing_world))
    = "├── A" ++ newline ++ "└── B" ++ newline /\
  requests (trace (main no_flags listing_world))
    = ["https://api.github.com/repos/o/r/contents/"].
Proof.
  apply (depth_one_prints_two_lines no_flags listing_world
           (Holds (mkInputs "o" "r" "" 1)) (mkCall "t" "o" "r" "" "" 1 1));
    reflexivity.
Defined.

(** How the walk goes on after a file entry. *)
Lemma walk_entries_file rec path indent e rest n :
  Type_ e = "file" ->
  walk_entries rec path indent (e :: rest) n =
  (Out (indent ++ getFilePrefix (is_final rest)) :: Out (Name e ++ newline)
     :: fst (walk_entries rec path indent rest n),
   snd (walk_entries rec path indent rest n)).
Proof.
  intros Ht. unfold walk_entries. cbn [walk_with]. rewrite Ht.
  change ("file" =? "file")%string with true. cbv iota.
  apply emit_line_andthen.
Qed.

(** How the walk goes on after a directory entry: the line, the whole
    subtree, and only then, if the subtree returned, the next sibling. *)
Lemma walk_entries_dir rec path indent e rest n :
  Type_ e = "dir" ->
  let isLast := is_final rest in
  let sub := rec (path ++ "/" ++ Name e) (indent ++ getIndentPrefix isLast) n in
  walk_entries rec path indent (e :: rest) n =
  match snd sub with
  | Returned =>
      (Out (indent ++ getDirPrefix isLast) :: Out (Name e ++ newline)
         :: (fst sub
             ++ fst (walk_entries rec path indent rest
                       (n + count_req (fst sub))%nat))%list,
       snd (walk_entries rec path indent rest (n + count_req (fst sub))%nat))
  | st => (Out (indent ++ getDirPrefix isLast) :: Out (Name e ++ newline)
             :: fst sub, st)
  end.
Proof.
  intros Ht isLast sub. unfold walk_entries. cbn [walk_with]. rewrite Ht.
  change ("dir" =? "file")%string with false.
  change ("dir" =? "dir")%string with true. cbv iota.
  fold isLast.
  pose proof (emit_line_andthen indent isLast (Name e)
                (rec (path ++ "/" ++ Name e) (indent ++ getIndentPrefix isLast))
                n) as E.
  fold sub in E.
  destruct sub as [t st] eqn:Hsub. cbn [fst snd] in *.
  destruct st.
  - rewrite (andthen_returned _ _ _ _ E). cbn [count_req app]. reflexivity.
  - rewrite (andthen_stopped _ _ _ _ _ E); [reflexivity|discriminate].
  - rewrite (andthen_stopped _ _ _ _ _ E); [reflexivity|discriminate].
Qed.

(** C7: a call that passes the depth guard and receives the list [files]
    sends its request and then walks [files] in the order received, an entry
    being the last one exactly when no entry follows it; a file entry gives
    its line; a directory entry gives its line and then the whole run of the
    recursive call, made with [path + "/" + name], with the indent extended
    by the continuation glyph of the directory's own [isLast], and at
    [level + 1] (the level being below the largest [int]), before the next
    sibling is looked at (and the next sibling is not looked at if that call
    panicked). *)
Theorem fetch_walks_depth_first
    (w : World) (accessToken owner repo : string) (maxDepth : Z)
    (fuel : nat) (path indent : string) (level : Z) (n : nat)
    (files : list File)
    (Hint : in_int level) (Hbelow : level < max_int)
    (Hlevel : level <= maxDepth)
    (Hurl : new_request_ok w (contents_url owner repo path) = true)
    (Hresp : api w n (contents_url owner repo path) ("Bearer " ++ accessToken)
             = BodyFiles files) :
  let rec := fun p ind =>
    fetch_fuel w fuel accessToken owner repo p ind (level + 1) maxDepth in
  fetch_fuel w (S fuel) accessToken owner repo path indent level maxDepth n
    = (Req (contents_url owner repo path) ("Bearer " ++ accessToken)
         :: fst (walk_entries rec path indent files (S n)),
       snd (walk_entries rec path indent files (S n))) /\
  (forall e rest m,
      Type_ e = "file" ->
      walk_entries rec path indent (e :: rest) m =
      (Out (indent ++ getFilePrefix (is_final rest)) :: Out (Name e ++ newline)
         :: fst (walk_entries rec path indent rest m),
       snd (walk_entries rec path indent rest m))) /\
  (forall e rest m,
      Type_ e = "dir" ->
      let isLast := is_final rest in
      let sub :=
        rec (path ++ "/" ++ Name e) (indent ++ getIndentPrefix isLast) m in
      walk_entries rec path indent (e :: rest) m =
      match snd sub with
      | Returned =>
          (Out (indent ++ getDirPrefix isLast) :: Out (Name e ++ newline)
             :: (fst sub
                 ++ fst (walk_entries rec path indent rest
                           (m + count_req (fst sub))%nat))%list,
           snd (walk_entries rec path indent rest
                  (m + count_req (fst sub))%nat))
      | st => (Out (indent ++ getDirPrefix isLast) :: Out (Name e ++ newline)
                 :: fst sub, st)
      end).
Proof.
  intros rec. split; [|split].
  - rewrite fetch_fuel_step by assumption.
    rewrite do_request_eq, Hresp. unfold on_response.
    rewrite int_add_small by (unfold in_int in Hint; lia).
    rewrite range_loop_is_walk by reflexivity. reflexivity.
  - intros e rest m Ht. apply walk_entries_file, Ht.
  - intros e rest m Ht. apply walk_entries_dir, Ht.
Qed.

Lemma fetch_walks_depth_first_witness :
  fetch_fuel listing_world 2 "t" "o" "r" "" "" 1 2 0%nat
  = (Req (contents_url "o" "r" "") ("Bearer " ++ "t")
       :: fst (walk_entries
                 (fun p ind =>
                    fetch_fuel listing_world 1 "t" "o" "r" p ind (1 + 1) 2)
                 "" "" [mkFile "A" "dir"; mkFile "B" "file"] 1%nat),
     snd (walk_entries
            (fun p ind =>
               fetch_fuel listing_world 1 "t" "o" "r" p ind (1 + 1) 2)
            "" "" [mkFile "A" "dir"; mkFile "B" "file"] 1%nat)).
Proof.
  apply (fetch_walks_depth_first listing_world "t" "o" "r" 2 1 "" "" 1 0
           [mkFile "A" "dir"; mkFile "B" "file"]);
    [unfold in_int, min_int, max_int; lia | unfold max_int; lia | lia
    | reflexivity | reflexivity].
Defined.

(** *** Rendered lines *)

Lemma string_app_nil (s : string) : s ++ "" = s.
Proof. induction s as [|x s IH]; simpl; [|rewrite IH]; reflexivity. Qed.

Lemma cat_app (l1 l2 : list string) : cat (l1 ++ l2) = cat l1 ++ cat l2.
Proof.
  induction l1 as [|s l1 IH]; simpl; [reflexivity|].
  rewrite IH, string_app_assoc. reflexivity.
Qed.

Lemma render_tree_app indent (l1 l2 : list tree_line) :
  render_tree indent (l1 ++ l2) = render_tree indent l1 ++ render_tree indent l2.
Proof. unfold render_tree. rewrite map_app. apply cat_app. Qed.

(** Lines rendered below a directory are lines of the directory's parent,
    one continuation glyph further in. *)
Lemma render_tree_below indent (b : bool) (ls : list tree_line) :
  render_tree (indent ++ getIndentPrefix b) ls =
  render_tree indent (map (fun l => let '(above, isLast, name) := l in
                                    (b :: above, isLast, name)) ls).
Proof.
  unfold render_tree. rewrite map_map. f_equal.
  apply map_ext. intros [[above isLast] name]. cbn [render_tree_line map cat].
  rewrite string_app_assoc. reflexivity.
Qed.

Lemma stdout_andthen (c1 c2 : Run) n :
  stdout (fst ((c1 ;; c2) n)) =
  stdout (fst (c1 n)) ++
  match snd (c1 n) with
  | Returned => stdout (fst (c2 (n + count_req (fst (c1 n)))%nat))
  | _ => ""
  end.
Proof.
  unfold andthen. destruct (c1 n) as [t1 s1]. cbn [fst snd].
  destruct s1; cbn [fst]; try (rewrite string_app_nil; reflexivity).
  destruct (c2 (n + count_req t1)%nat) as [t2 s2]. cbn [fst].
  apply stdout_app.
Qed.

Lemma walk_with_lines rec path indent last_of :
  (forall p b m, exists ls,
      stdout (fst (rec p (indent ++ getIndentPrefix b) m))
      = render_tree (indent ++ getIndentPrefix b) ls) ->
  forall files n, exists ls,
    stdout (fst (walk_with rec path indent last_of files n))
    = render_tree indent ls.
Proof.
  intros Hrec files. induction files as [|f rest IH]; intros n.
  - exists []. reflexivity.
  - cbn [walk_with]. rewrite stdout_andthen.
    set (b := last_of rest).
    assert (Hhead : exists ls,
      stdout (fst ((if (Type_ f =? "file")%string then emit_line indent b (Name f)
                    else if (Type_ f =? "dir")%string then
                      emit_line indent b (Name f) ;;
                      rec (path ++ "/" ++ Name f) (indent ++ getIndentPrefix b)
                    else skip) n))
      = render_tree indent ls).
    { destruct (Type_ f =? "file")%string.
      - exists [([], b, Name f)]. rewrite stdout_emit_line.
        unfold render_tree. cbn [map cat render_tree_line].
        rewrite !string_app_nil. reflexivity.
      - destruct (Type_ f =? "dir")%string; [|exists []; reflexivity].
        rewrite stdout_andthen, stdout_emit_line, emit_line_eq. cbn [snd fst].
        destruct (Hrec (path ++ "/" ++ Name f) b (n + count_req
                    [Out (indent ++ getFilePrefix b); Out (Name f ++ newline)])%nat)
          as [ls Hls].
        rewrite Hls, render_tree_below.
        eexists (([], b, Name f) :: _).
        unfold render_tree at 2. cbn [map cat render_tree_line].
        rewrite string_app_nil. reflexivity. }
    destruct Hhead as [ls1 H1]. rewrite H1.
    match goal with
    | |- context [match ?s with Returned => _ | _ => _ end] => destruct s
    end.
    + match goal with
      | |- context [walk_with _ _ _ _ rest ?m] =>
          destruct (IH m) as [ls2 H2]; rewrite H2
      end.
      exists (ls1 ++ ls2)%list. rewrite render_tree_app. reflexivity.
    + exists ls1. apply string_app_nil.
    + exists ls1. apply string_app_nil.
Qed.

Lemma fetch_fuel_lines w accessToken owner repo maxDepth fuel :
  forall path indent level n, exists ls,
    stdout (fst (fetch_fuel w fuel accessToken owner repo path indent level
                   maxDepth n))
    = render_tree indent ls.
Proof.
  induction fuel as [|fuel IH]; intros path indent level n.
  - exists []. rewrite fetch_fuel_O. destruct (level >? maxDepth); reflexivity.
  - rewrite fetch_fuel_S.
    destruct (level >? maxDepth); [exists []; reflexivity|].
    destruct (negb (new_request_ok w (contents_url owner repo path)));
      [exists []; reflexivity|].
    rewrite do_request_eq. cbn [fst stdout].
    generalize
      (api w n (contents_url owner repo path) ("Bearer " ++ accessToken)).
    intros resp. destruct resp; try (exists []; reflexivity).
    unfold on_response.
    rewrite range_loop_is_walk by reflexivity.
    apply walk_with_lines. intros p b m. apply IH.
Qed.

(** The two writes that open the run of a file or directory entry. *)
Lemma range_loop_entry_line rec path indent len i f rest n :
  Type_ f = "file" \/ Type_ f = "dir" ->
  exists tr,
    fst (range_loop rec path indent len i (f :: rest) n)
    = Out (indent ++ getFilePrefix (i =? len - 1)) :: Out (Name f ++ newline)
        :: tr.
Proof.
  intros Ht. rewrite range_loop_cons.
  set (b := i =? len - 1).
  assert (H : exists tr st,
    (if (Type_ f =? "file")%string then emit_line indent b (Name f)
     else if (Type_ f =? "dir")%string then
       emit_line indent b (Name f) ;;
       rec (path ++ "/" ++ Name f) (indent ++ getIndentPrefix b)
     else skip) n
    = (Out (indent ++ getFilePrefix b) :: Out (Name f ++ newline) :: tr, st)).
  { destruct Ht as [Ht|Ht]; rewrite Ht.
    - exists [], Returned. reflexivity.
    - change ("dir" =? "file")%string with false.
      change ("dir" =? "dir")%string with true. cbv iota.
      rewrite emit_line_andthen. eexists _, _. reflexivity. }
  destruct H as (tr & st & E).
  unfold andthen at 1. rewrite E.
  destruct st; try (exists tr; reflexivity).
  destruct (range_loop rec path indent len (i + 1) rest _) as [t2 s2].
  eexists. reflexivity.
Qed.

(** C8: the branch glyph is [└── ] for a last entry and [├── ] otherwise,
    the same for files and for directories; the continuation glyph is four
    spaces for a last entry and [│   ] otherwise; a file or directory entry
    is written as the indent, the branch glyph, its name and a newline; and
    whatever a run of the fetcher prints is a sequence of such lines, the
    indent of each being the starting indent followed by the continuation
    glyphs of the directories entered. *)
Theorem renderer_glyphs_and_lines :
  getFilePrefix true = "└── " /\ getFilePrefix false = "├── " /\
  (forall isLast, getDirPrefix isLast = getFilePrefix isLast) /\
  getIndentPrefix true = "    " /\ getIndentPrefix false = "│   " /\
  (forall rec path indent len i f rest n,
      Type_ f = "file" \/ Type_ f = "dir" ->
      exists tr,
        fst (range_loop rec path indent len i (f :: rest) n)
        = Out (indent ++ getFilePrefix (i =? len - 1))
            :: Out (Name f ++ newline) :: tr /\
        stdout [Out (indent ++ getFilePrefix (i =? len - 1));
                Out (Name f ++ newline)]
        = indent ++ getFilePrefix (i =? len - 1) ++ Name f ++ newline) /\
  (forall w fuel accessToken owner repo path indent level maxDepth n,
    exists ls : list tree_line,
      stdout (fst (fetch_fuel w fuel accessToken owner repo path indent level
                     maxDepth n))
      = render_tree indent ls).
Proof.
  repeat split; try reflexivity.
  - intros rec path indent len i f rest n Ht.
    destruct (range_loop_entry_line rec path indent len i f rest n Ht)
      as [tr E].
    exists tr. split; [exact E|].
    cbn [stdout]. rewrite string_app_nil, string_app_assoc. reflexivity.
  - intros. apply fetch_fuel_lines.
Qed.

Lemma renderer_glyphs_and_lines_witness :
  exists tr,
    fst (range_loop (fun _ _ => skip) "" "│   " 2 1
           [mkFile "B" "file"] 0%nat)
    = Out ("│   " ++ getFilePrefix (1 =? 2 - 1)) :: Out ("B" ++ newline) :: tr /\
    stdout [Out ("│   " ++ getFilePrefix (1 =? 2 - 1)); Out ("B" ++ newline)]
    = "│   " ++ getFilePrefix (1 =? 2 - 1) ++ "B" ++ newline.
Proof.
  apply (renderer_glyphs_and_lines). left. reflexivity.
Defined.

(** C9: an entry that is neither a file nor a directory gives no output and
    no recursive call, and the loop goes on at the next index with [len]
    unchanged; so, when such an entry comes last in a response, the run is
    that of the entries before it with none of them rendered as the last
    one: each file or directory among them gets [├── ], and [│   ] below it. *)
Theorem other_entries_are_skipped_but_counted
    (w : World) (accessToken owner repo path indent : string)
    (level maxDepth : Z) (fuel : nat) (other : File)
    (Hfile : Type_ other <> "file") (Hdir : Type_ other <> "dir") :
  let rec := fun p ind =>
    fetch_fuel w fuel accessToken owner repo p ind (int_add level 1) maxDepth in
  (forall len i rest n,
      range_loop rec path indent len i (other :: rest) n
      = range_loop rec path indent len (i + 1) rest n) /\
  (forall init n,
      on_response w fuel accessToken owner repo path indent level maxDepth
        (BodyFiles (init ++ [other])) n
      = walk_never_last rec path indent init n) /\
  (forall e rest n,
      Type_ e = "file" \/ Type_ e = "dir" ->
      exists tr,
        fst (walk_never_last rec path indent (e :: rest) n)
        = Out (indent ++ "├── ") :: Out (Name e ++ newline) :: tr).
Proof.
  intros rec. apply String.eqb_neq in Hfile, Hdir.
  split; [|split].
  - intros len i rest n. apply range_loop_other; assumption.
  - intros init n. unfold on_response. fold rec.
    rewrite range_loop_other_at_end by assumption.
    apply range_loop_never_last.
    rewrite length_app. cbn [List.length]. lia.
  - intros e rest n Ht.
    destruct (range_loop_entry_line rec path indent
                (Z.of_nat (List.length (e :: rest)) + 1) 0 e rest n Ht)
      as [tr E].
    exists tr. rewrite <- range_loop_never_last
      with (len := Z.of_nat (List.length (e :: rest)) + 1) (i := 0) by lia.
    rewrite E.
    replace (0 =? Z.of_nat (List.length (e :: rest)) + 1 - 1) with false
      by (symmetry; apply Z.eqb_neq; cbn [List.length]; lia).
    reflexivity.
Qed.

Lemma other_entries_are_skipped_but_counted_witness :
  on_response submodule_world 0 "t" "o" "r" "" "" 1 1
    (BodyFiles ([mkFile "f" "file"; mkFile "d" "dir"] ++ [mkFile "m" "submodule"]))
    1%nat
  = walk_never_last
      (fun p ind => fetch_fuel submodule_world 0 "t" "o" "r" p ind (int_add 1 1) 1)
      "" "" [mkFile "f" "file"; mkFile "d" "dir"] 1%nat.
Proof.
  apply (other_entries_are_skipped_but_counted submodule_world "t" "o" "r" "" ""
           1 1 0 (mkFile "m" "submodule")); discriminate.
Defined.

(** *** A run two levels deep *)

(** With depth 2 the file inside [A] is listed below it, behind the
    continuation glyph of a directory that is not the last entry. *)
Example depth_two_listing :
  main (mkFlags "" "" "" 2) nested_world
  = mkOutcome (Holds (mkInputs "o" "r" "" 2))
      [Req "https://api.github.com/repos/o/r/contents/" "Bearer t";
       Out "├── "; Out ("A" ++ newline);
       Req "https://api.github.com/repos/o/r/contents//A" "Bearer t";
       Out "│   └── "; Out ("C" ++ newline);
       Out "└── "; Out ("B" ++ newline)]
      Returned.
Proof. vm_compute. reflexivity. Qed.

(** A submodule listed last: the file and the directory before it both get
    the glyph of an entry that is not the last. *)
Example submodule_last_listing :
  stdout (trace (main no_flags submodule_world))
  = "├── f" ++ newline ++ "├── d" ++ newline.
Proof. vm_compute. reflexivity. Qed.

(** *** The whole run ends *)



(** * Further properties of the code *)

(** ** [main] before the fetch *)

(** Every way [main_until_fetch] can go, for case analysis. *)
Lemma main_until_fetch_cases fl w :
  (getwd_ok w = false /\
   main_until_fetch fl w = (inputs_file w, inl ErrGetwd)) \/
  (getwd_ok w = true /\ inputs_file w = Unreadable /\
   main_until_fetch fl w = (Unreadable, inl ErrReadInputs)) \/
  (getwd_ok w = true /\ inputs_file w = Malformed /\
   main_until_fetch fl w = (Malformed, inl ErrParseInputs)) \/
  (exists s, getwd_ok w = true /\ inputs_file w = Holds s /\
             (Owner s = "" \/ Repo s = "") /\
             main_until_fetch fl w = (Holds s, inl ErrEmptyOwnerRepo)) \/
  (getwd_ok w = true /\ write_ok w = false /\ accepted (inputs_file w) = true /\
   main_until_fetch fl w = (inputs_file w, inl ErrWriteInputs)) \/
  (getwd_ok w = true /\ write_ok w = false /\ inputs_file w = Missing /\
   main_until_fetch fl w = (Missing, inl ErrWriteInputs)) \/
  (exists s', getwd_ok w = true /\ write_ok w = true /\
              (inputs_file w = Missing \/ accepted (inputs_file w) = true) /\
              resolved_settings fl (inputs_file w) = Some s' /\
              main_until_fetch fl w =
              (Holds s',
               if (access_token w =? "")%string then inl ErrNoToken
               else inr (mkCall (access_token w) (Owner s') (Repo s') (Path s')
                           "" 1 (MaxDepth s')))).
Proof.
  destruct (getwd_ok w) eqn:Hg.
  2:{ left. split; [reflexivity|]. unfold main_until_fetch. rewrite Hg.
      reflexivity. }
  right.
  destruct (inputs_file w) as [| | |s] eqn:Hf.
  - pose proof (main_until_fetch_missing fl w Hg Hf) as E. cbv zeta in E.
    destruct (write_ok w) eqn:Hw.
    + do 5 right. eexists.
      split; [reflexivity|]. split; [reflexivity|].
      split; [left; reflexivity|]. split; [reflexivity|]. exact E.
    + do 4 right. left.
      split; [reflexivity|]. split; [reflexivity|]. split; [reflexivity|].
      exact E.
  - left. split; [reflexivity|]. split; [reflexivity|].
    unfold main_until_fetch. rewrite Hg, Hf. reflexivity.
  - right. left. split; [reflexivity|]. split; [reflexivity|].
    unfold main_until_fetch. rewrite Hg, Hf. reflexivity.
  - do 2 right.
    destruct (string_dec (Owner s) "") as [Ho|Ho].
    { left. exists s. split; [reflexivity|]. split; [reflexivity|].
      split; [left; assumption|].
      apply main_until_fetch_empty_field; auto. }
    destruct (string_dec (Repo s) "") as [Hr|Hr].
    { left. exists s. split; [reflexivity|]. split; [reflexivity|].
      split; [right; assumption|].
      apply main_until_fetch_empty_field; auto. }
    right.
    pose proof (main_until_fetch_stored fl w s Hg Hf Ho Hr) as E.
    assert (Ha : accepted (Holds s) = true).
    { cbn [accepted]. apply String.eqb_neq in Ho, Hr. rewrite Ho, Hr.
      reflexivity. }
    destruct (write_ok w) eqn:Hw.
    + do 2 right. eexists.
      split; [reflexivity|]. split; [reflexivity|].
      split; [right; exact Ha|]. split; [reflexivity|]. exact E.
    + left. split; [reflexivity|]. split; [reflexivity|].
      split; [exact Ha|]. exact E.
Qed.

Lemma main_file_after fl w : file_after (main fl w) = fst (main_until_fetch fl w).
Proof.
  unfold main. destruct (main_until_fetch fl w) as [f [e|c]]; [reflexivity|].
  destruct (run_call w c 0%nat). reflexivity.
Qed.

Lemma overlay_idem (flag stored : string) :
  overlay flag (overlay flag stored) = overlay flag stored.
Proof. unfold overlay. destruct (flag =? "")%string; reflexivity. Qed.

Lemma overlay_same (flag : string) : overlay flag flag = flag.
Proof. unfold overlay. destruct (flag =? "")%string; reflexivity. Qed.

Lemma accepted_holds f :
  accepted f = true <-> exists s, f = Holds s /\ Owner s <> "" /\ Repo s <> "".
Proof.
  split.
  - destruct f as [| | |s]; try discriminate. cbn [accepted]. intros H.
    apply andb_true_iff in H. destruct H as [Ho Hr].
    apply negb_true_iff in Ho, Hr. apply String.eqb_neq in Ho, Hr.
    exists s. auto.
  - intros (s & -> & Ho & Hr). cbn [accepted].
    apply String.eqb_neq in Ho, Hr. rewrite Ho, Hr. reflexivity.
Qed.

(** X1: a settings file with non-empty owner and repo is rewritten as one by
    every run that can write, whatever the flags; and the fetcher is then
    called with a non-empty owner and a non-empty repo. *)
Theorem accepted_file_stays_accepted
    (fl : Flags) (w : World)
    (Hwd : getwd_ok w = true) (Hwr : write_ok w = true)
    (Hacc : accepted (inputs_file w) = true) :
  accepted (file_after (main fl w)) = true /\
  forall f' c,
    main_until_fetch fl w = (f', inr c) -> c_owner c <> "" /\ c_repo c <> "".
Proof.
  apply accepted_holds in Hacc. destruct Hacc as (s & Hf & Ho & Hr).
  pose proof (main_until_fetch_stored fl w s Hwd Hf Ho Hr) as E.
  rewrite Hwr in E.
  split.
  - rewrite main_file_after, E. cbn [fst]. apply accepted_holds.
    eexists. split; [reflexivity|]. cbn [Owner Repo].
    split; apply overlay_nonempty; assumption.
  - intros f' c Hrun. rewrite E in Hrun.
    destruct (access_token w =? "")%string; [discriminate|].
    injection Hrun as _ Hc. subst c. cbn [c_owner c_repo].
    split; apply overlay_nonempty; assumption.
Qed.

Lemma accepted_file_stays_accepted_witness :
  accepted (file_after (main (mkFlags "" "q" "" 0) stored_world)) = true.
Proof.
  apply (accepted_file_stays_accepted (mkFlags "" "q" "" 0) stored_world);
    reflexivity.
Defined.

(** X2: a settings file that is there but cannot be read, or is not JSON,
    makes the run panic whatever the flags are, before anything is written,
    requested or printed; the file is left as it is, so the next run, with
    any flags, ends the same way. *)
Theorem corrupt_settings_file_blocks_every_run
    (fl fl' : Flags) (w : World)
    (Hwd : getwd_ok w = true)
    (Hbad : inputs_file w = Unreadable \/ inputs_file w = Malformed) :
  main fl w
    = mkOutcome (inputs_file w) []
        (Panicked (match inputs_file w with
                   | Malformed => ErrParseInputs
                   | _ => ErrReadInputs
                   end)) /\
  main fl' (with_file w (file_after (main fl w))) = main fl w.
Proof.
  assert (E : forall g v, getwd_ok v = true ->
                inputs_file v = Unreadable \/ inputs_file v = Malformed ->
                main g v = mkOutcome (inputs_file v) []
                  (Panicked (match inputs_file v with
                             | Malformed => ErrParseInputs
                             | _ => ErrReadInputs
                             end))).
  { intros g v Hg Hv. unfold main, main_until_fetch. rewrite Hg.
    destruct Hv as [Hv|Hv]; rewrite Hv; reflexivity. }
  split; [apply E; assumption|].
  rewrite (E fl w Hwd Hbad). cbn [file_after].
  rewrite E; [reflexivity | exact Hwd | exact Hbad].
Qed.

Lemma corrupt_settings_file_blocks_every_run_witness :
  main (mkFlags "o" "r" "" 1) corrupt_world
    = mkOutcome Malformed [] (Panicked ErrParseInputs).
Proof.
  apply (corrupt_settings_file_blocks_every_run (mkFlags "o" "r" "" 1) no_flags
           corrupt_world eq_refl (or_intror eq_refl)).
Defined.

(** What [main] hands to the fetcher is what it has written. *)
Lemma main_call_written fl w f' c :
  main_until_fetch fl w = (f', inr c) ->
  f' = Holds (mkInputs (c_owner c) (c_repo c) (c_path c) (c_maxDepth c)) /\
  c_accessToken c = access_token w /\ access_token w <> "".
Proof.
  intros Hrun.
  destruct (main_until_fetch_cases fl w)
    as [[_ E]|[(_ & _ & E)|[(_ & _ & E)|[(s & _ & _ & _ & E)
       |[(_ & _ & _ & E)|[(_ & _ & _ & E)|(s' & _ & _ & _ & _ & E)]]]]]];
    rewrite E in Hrun; try discriminate Hrun.
  destruct (access_token w =? "")%string eqn:Et; [discriminate|].
  injection Hrun as Hf Hc. subst f' c. cbn.
  apply String.eqb_neq in Et. destruct s'. auto.
Qed.

(** X4: when [main] calls the fetcher, the settings file it has just written
    holds exactly the owner, repo, path and depth of the call, and the token
    of the call is the non-empty value of [GITHUB_ACCESS_TOKEN]. *)
Theorem fetch_call_is_what_was_written
    (fl : Flags) (w : World) (f' : file_state) (c : FetchCall)
    (Hrun : main_until_fetch fl w = (f', inr c)) :
  f' = Holds (mkInputs (c_owner c) (c_repo c) (c_path c) (c_maxDepth c)) /\
  c_accessToken c = access_token w /\ access_token w <> "".
Proof. exact (main_call_written fl w f' c Hrun). Qed.

Lemma fetch_call_is_what_was_written_witness :
  Holds (mkInputs "o" "r" "src" 2)
    = Holds (mkInputs "o" "r" "src" 2) /\
  "t" = access_token stored_world /\ access_token stored_world <> "".
Proof.
  apply (fetch_call_is_what_was_written (mkFlags "" "" "" 2) stored_world
           (Holds (mkInputs "o" "r" "src" 2)) (mkCall "t" "o" "r" "src" "" 1 2)).
  reflexivity.
Defined.

(** X5: once the settings file holds a non-empty path, no flag brings a run
    back to the repository root: an empty path flag keeps the stored path,
    a non-empty one replaces it. *)
Theorem stored_path_cannot_be_reset
    (fl : Flags) (w : World) (s : Inputs) (f' : file_state) (c : FetchCall)
    (Hfile : inputs_file w = Holds s) (Hpath : Path s <> "")
    (Hrun : main_until_fetch fl w = (f', inr c)) :
  c_path c <> "" /\
  (c_path c = pathFlag fl \/ (pathFlag fl = "" /\ c_path c = Path s)).
Proof.
  destruct (main_until_fetch_cases fl w)
    as [[_ E]|[(_ & _ & E)|[(_ & _ & E)|[(s0 & _ & _ & _ & E)
       |[(_ & _ & _ & E)|[(_ & _ & _ & E)|(s' & _ & _ & _ & Hs & E)]]]]]];
    rewrite E in Hrun; try discriminate Hrun.
  destruct (access_token w =? "")%string; [discriminate|].
  injection Hrun as _ Hc. subst c. cbn [c_path].
  rewrite Hfile in Hs. cbn [resolved_settings] in Hs.
  injection Hs as Hs. subst s'. cbn [Path].
  split; [apply overlay_nonempty, Hpath|].
  unfold overlay. destruct (pathFlag fl =? "")%string eqn:Ep.
  - right. apply String.eqb_eq in Ep. auto.
  - left. reflexivity.
Qed.

Lemma stored_path_cannot_be_reset_witness :
  c_path (mkCall "t" "o" "r" "src" "" 1 1) <> "".
Proof.
  apply (stored_path_cannot_be_reset no_flags stored_world stored_inputs
           (Holds (mkInputs "o" "r" "src" 1)) (mkCall "t" "o" "r" "src" "" 1 1)
           eq_refl ltac:(discriminate) eq_refl).
Defined.

(** X6: a run that wrote a settings file with non-empty owner and repo, run
    again with the same flags, ends the same way and writes the same file,
    unless the first run created the file with [-maxDepth 0] (it then wrote
    depth 1, and the second run writes 0). *)
Theorem rerun_with_same_flags_is_stable
    (fl : Flags) (w : World) (f' : file_state) (r : fatal + FetchCall)
    (Hrun : main_until_fetch fl w = (f', r))
    (Hwritten : r = inl ErrNoToken \/ exists c, r = inr c)
    (Hacc : accepted f' = true)
    (Hdepth : maxDepthFlag fl <> 0 \/ inputs_file w <> Missing) :
  main_until_fetch fl (with_file w f') = (f', r).
Proof.
  destruct (main_until_fetch_cases fl w)
    as [[_ E]|[(_ & _ & E)|[(_ & _ & E)|[(s0 & _ & _ & _ & E)
       |[(_ & _ & _ & E)|[(_ & _ & _ & E)|(s' & Hg & Hw & Hin & Hs & E)]]]]]];
    rewrite E in Hrun; injection Hrun as Hf Hr; subst f' r;
    try (destruct Hwritten as [H|[c H]]; discriminate H).
  apply accepted_holds in Hacc. destruct Hacc as (s & Hh & Ho & Hr).
  injection Hh as Hh. subst s'.
  rewrite (main_until_fetch_stored fl (with_file w (Holds s)) s Hg eq_refl Ho Hr).
  cbn [with_file write_ok access_token]. rewrite Hw.
  assert (Hfix : mkInputs (overlay (ownerFlag fl) (Owner s))
                   (overlay (repoFlag fl) (Repo s))
                   (overlay (pathFlag fl) (Path s)) (maxDepthFlag fl) = s).
  { destruct (inputs_file w) as [| | |s0] eqn:Hf0;
      cbn [resolved_settings] in Hs; try discriminate Hs;
      injection Hs as Hs; subst s; cbn [Owner Repo Path MaxDepth].
    - rewrite !overlay_same.
      replace (maxDepthFlag fl =? 0) with false; [reflexivity|].
      symmetry. apply Z.eqb_neq. destruct Hdepth as [H|H]; congruence.
    - rewrite !overlay_idem. reflexivity. }
  rewrite Hfix.
  destruct s as [o rp p d]. injection Hfix as Ho' Hr' Hp' Hd'.
  cbn [Owner Repo Path MaxDepth] in *. rewrite Ho', Hr', Hp', Hd'.
  reflexivity.
Qed.

Lemma rerun_with_same_flags_is_stable_witness :
  main_until_fetch (mkFlags "o" "r" "" 2)
    (with_file tokenless_world (Holds (mkInputs "o" "r" "" 2)))
  = (Holds (mkInputs "o" "r" "" 2), inl ErrNoToken).
Proof.
  apply (rerun_with_same_flags_is_stable (mkFlags "o" "r" "" 2) tokenless_world
           (Holds (mkInputs "o" "r" "" 2)) (inl ErrNoToken) eq_refl
           (or_introl eq_refl) eq_refl).
  left. discriminate.
Defined.

(** ** Panics *)

(** The fetcher panics on the HTTP exchange only. *)
Lemma fetch_fuel_panic_kind w fuel e :
  e <> ErrNewRequest -> exchange_error e = false ->
  forall accessToken owner repo path indent level maxDepth n,
    snd (fetch_fuel w fuel accessToken owner repo path indent level maxDepth n)
    <> Panicked e.
Proof.
  intros Hn He. induction fuel as [|fuel IH]; intros.
  - rewrite fetch_fuel_O. destruct (level >? maxDepth); simpl; discriminate.
  - rewrite fetch_fuel_S. destruct (level >? maxDepth); [simpl; discriminate|].
    destruct (negb (new_request_ok w (contents_url owner repo path)));
      [simpl; congruence|].
    rewrite do_request_eq. cbn [snd].
    generalize
      (api w n (contents_url owner repo path) ("Bearer " ++ accessToken)).
    intros resp.
    destruct resp; try (simpl; intros H; injection H as H; subst e;
                        discriminate He).
    unfold on_response. apply range_loop_status_not; [discriminate|].
    intros p ind m. apply IH.
Qed.

(** X3: a run that panics in the resolver or on the missing token has sent
    no request and printed nothing; if the panic is not that of the write or
    of the token, the settings file is as the run found it. *)
Theorem panic_before_fetch_leaves_no_trace
    (fl : Flags) (w : World) (e : fatal)
    (Hexit : exit_status (main fl w) = Panicked e)
    (He : resolver_error e = true \/ e = ErrNoToken) :
  trace (main fl w) = [] /\
  (e <> ErrWriteInputs -> e <> ErrNoToken ->
   file_after (main fl w) = inputs_file w).
Proof.
  revert Hexit. unfold main.
  destruct (main_until_fetch fl w) as [f' [e0|c]] eqn:E.
  - cbn [exit_status trace file_after]. intros H. injection H as H. subst e0.
    split; [reflexivity|]. intros Hw Ht.
    destruct (main_until_fetch_cases fl w)
      as [[_ E1]|[(_ & Hf & E1)|[(_ & Hf & E1)|[(s0 & _ & Hf & _ & E1)
         |[(_ & _ & _ & E1)|[(_ & _ & _ & E1)|(s' & _ & _ & _ & _ & E1)]]]]]];
      rewrite E1 in E; try (injection E as Hf' He'; subst; congruence).
    destruct (access_token w =? "")%string;
      injection E as Hf' He'; congruence.
  - unfold run_call, fetchFilesAndFolders.
    destruct (fetch_fuel w _ _ _ _ _ _ _ _ _) as [t st] eqn:F.
    cbn [exit_status]. intros H. exfalso.
    apply (fetch_fuel_panic_kind w
             (depth_fuel (c_level c) (c_maxDepth c)) e) with
      (accessToken := c_accessToken c) (owner := c_owner c) (repo := c_repo c)
      (path := c_path c) (indent := c_indent c) (level := c_level c)
      (maxDepth := c_maxDepth c) (n := 0%nat).
    + destruct He as [He|He]; [intros ->; discriminate He | subst e; discriminate].
    + destruct He as [He|He]; [destruct e; try discriminate He; reflexivity
                              | subst e; reflexivity].
    + rewrite F. exact H.
Qed.

Lemma panic_before_fetch_leaves_no_trace_witness :
  trace (main (mkFlags "o" "" "" 1) ownerless_world) = [] /\
  (ErrEmptyOwnerRepo <> ErrWriteInputs -> ErrEmptyOwnerRepo <> ErrNoToken ->
   file_after (main (mkFlags "o" "" "" 1) ownerless_world)
   = inputs_file ownerless_world).
Proof.
  apply (panic_before_fetch_leaves_no_trace (mkFlags "o" "" "" 1)
           ownerless_world ErrEmptyOwnerRepo eq_refl (or_introl eq_refl)).
Defined.

(** X11: a [maxDepth] flag below 1 with a settings file in place, or a
    negative one without, is written to the settings file as it is, beside
    the owner, repo and path of the call; the run then sends no request,
    prints nothing and returns. *)
Theorem depth_below_one_is_silent
    (fl : Flags) (w : World) (f' : file_state) (c : FetchCall)
    (Hrun : main_until_fetch fl w = (f', inr c))
    (Hdepth : (maxDepthFlag fl < 1 /\ inputs_file w <> Missing)
              \/ maxDepthFlag fl < 0) :
  c_maxDepth c = maxDepthFlag fl /\
  main fl w
  = mkOutcome
      (Holds (mkInputs (c_owner c) (c_repo c) (c_path c) (maxDepthFlag fl)))
      [] Returned.
Proof.
  assert (Hc : c_maxDepth c = maxDepthFlag fl).
  { destruct (main_until_fetch_cases fl w)
      as [[_ E]|[(_ & _ & E)|[(_ & _ & E)|[(s0 & _ & _ & _ & E)
         |[(_ & _ & _ & E)|[(_ & _ & _ & E)|(s' & _ & _ & _ & Hs & E)]]]]]];
      rewrite E in Hrun; try discriminate Hrun.
    destruct (access_token w =? "")%string; [discriminate|].
    injection Hrun as _ Hc. subst c. cbn [c_maxDepth].
    destruct (inputs_file w) as [| | |s0]; cbn [resolved_settings] in Hs;
      try discriminate Hs; injection Hs as Hs; subst s'; cbn [MaxDepth];
      [|reflexivity].
    destruct Hdepth as [[_ H]|H]; [congruence|].
    replace (maxDepthFlag fl =? 0) with false; [reflexivity|].
    symmetry. apply Z.eqb_neq. lia. }
  split; [exact Hc|].
  destruct (main_call_written fl w f' c Hrun) as (Hf & _ & _).
  rewrite Hc in Hf. rewrite <- Hf.
  unfold main. rewrite Hrun. unfold run_call, fetchFilesAndFolders.
  destruct (main_call_indent_level _ _ _ _ Hrun) as [_ Hl].
  rewrite fetch_fuel_guard; [reflexivity|].
  rewrite Hl, Hc. destruct Hdepth as [[H _]|H]; lia.
Qed.

Lemma depth_below_one_is_silent_witness :
  main (mkFlags "" "" "" 0) stored_world
  = mkOutcome (Holds (mkInputs "o" "r" "src" 0)) [] Returned.
Proof.
  apply (depth_below_one_is_silent (mkFlags "" "" "" 0) stored_world
           (Holds (mkInputs "o" "r" "src" 0)) (mkCall "t" "o" "r" "src" "" 1 0)
           eq_refl).
  left. split; [reflexivity | discriminate].
Defined.

(** ** Requests *)













(** ** Panics of the exchange *)

Lemma ends_with_request_app (t1 t2 : list event) :
  ends_with_request t2 -> ends_with_request (t1 ++ t2).
Proof.
  intros (tr & u & a & ->). exists (t1 ++ tr)%list, u, a.
  apply app_assoc.
Qed.

Lemma andthen_panic_tail (c1 c2 : Run) n e :
  snd ((c1 ;; c2) n) = Panicked e ->
  (snd (c1 n) = Panicked e -> ends_with_request (fst (c1 n))) ->
  (forall m, snd (c2 m) = Panicked e -> ends_with_request (fst (c2 m))) ->
  ends_with_request (fst ((c1 ;; c2) n)).
Proof.
  unfold andthen. destruct (c1 n) as [t1 s1]. cbn [fst snd].
  destruct s1.
  - intros H _ H2. specialize (H2 (n + count_req t1)%nat).
    destruct (c2 (n + count_req t1)%nat) as [t2 s2]. cbn [fst snd] in *.
    apply ends_with_request_app, H2, H.
  - cbn [fst snd]. intros H H1 _. apply H1, H.
  - discriminate.
Qed.

Lemma range_loop_panic_tail rec path indent len e :
  (forall p ind m, snd (rec p ind m) = Panicked e ->
                   ends_with_request (fst (rec p ind m))) ->
  forall files i n,
    snd (range_loop rec path indent len i files n) = Panicked e ->
    ends_with_request (fst (range_loop rec path indent len i files n)).
Proof.
  intros Hrec files. induction files as [|f rest IH]; intros i n.
  - discriminate.
  - rewrite range_loop_cons. intros H.
    apply (andthen_panic_tail _ _ _ _ H); [|intros m; apply IH].
    destruct (Type_ f =? "file")%string; [discriminate|].
    destruct (Type_ f =? "dir")%string; [|discriminate].
    rewrite emit_line_andthen. cbn [fst snd]. intros Hp.
    apply (ends_with_request_app [_; _]). apply Hrec, Hp.
Qed.

Lemma fetch_fuel_panic_tail w accessToken owner repo maxDepth e fuel :
  exchange_error e = true ->
  forall path indent level n,
    snd (fetch_fuel w fuel accessToken owner repo path indent level maxDepth n)
      = Panicked e ->
    ends_with_request
      (fst (fetch_fuel w fuel accessToken owner repo path indent level
              maxDepth n)).
Proof.
  intros He. induction fuel as [|fuel IH]; intros path indent level n.
  - rewrite fetch_fuel_O. destruct (level >? maxDepth); discriminate.
  - rewrite fetch_fuel_S. destruct (level >? maxDepth); [discriminate|].
    destruct (negb (new_request_ok w (contents_url owner repo path))).
    { intros H. injection H as H. subst e. discriminate He. }
    rewrite do_request_eq. cbn [fst snd].
    generalize
      (api w n (contents_url owner repo path) ("Bearer " ++ accessToken)).
    intros resp.
    destruct resp; try (intros _; exists [], (contents_url owner repo path),
                          ("Bearer " ++ accessToken); reflexivity).
    unfold on_response. intros H.
    apply (ends_with_request_app [_]).
    apply (range_loop_panic_tail _ _ _ _ e); [|exact H].
    intros p ind m. apply IH.
Qed.

Lemma fatal_eq_new_request (e : fatal) :
  e = ErrNewRequest \/ e <> ErrNewRequest.
Proof. destruct e; (left; reflexivity) || (right; discriminate). Qed.

(** X9: the fetcher panics only when [http.NewRequest] rejects a URL or the
    HTTP exchange fails (transport, body, JSON); in the second case the
    failed request is the last thing the run did: what was printed before
    stays, and nothing is printed after it. *)
Theorem exchange_panic_follows_its_request
    (w : World) (fuel : nat) (accessToken owner repo path indent : string)
    (level maxDepth : Z) (n : nat) (e : fatal)
    (Hpanic : snd (fetch_fuel w fuel accessToken owner repo path indent level
                     maxDepth n) = Panicked e) :
  (e = ErrNewRequest \/ exchange_error e = true) /\
  (exchange_error e = true ->
   ends_with_request
     (fst (fetch_fuel w fuel accessToken owner repo path indent level
             maxDepth n))).
Proof.
  split.
  - destruct (fatal_eq_new_request e) as [H|H]; [left; exact H|].
    right. destruct (exchange_error e) eqn:He; [reflexivity|].
    exfalso.
    apply (fetch_fuel_panic_kind w fuel e H He accessToken owner repo path
             indent level maxDepth n Hpanic).
  - intros He.
    apply (fetch_fuel_panic_tail w accessToken owner repo maxDepth e);
      assumption.
Qed.

Lemma exchange_panic_follows_its_request_witness :
  ends_with_request
    (fst (fetch_fuel fresh_world 1 "t" "" "" "" "" 1 1 0%nat)).
Proof.
  apply (exchange_panic_follows_its_request fresh_world 1 "t" "" "" "" "" 1 1
           0%nat ErrDecodeBody eq_refl).
  reflexivity.
Defined.

(** ** Listings *)

Lemma requests_app (t1 t2 : list event) :
  requests (t1 ++ t2) = (requests t1 ++ requests t2)%list.
Proof.
  induction t1 as [|[u a|s] t1 IH]; cbn [requests app];
    [reflexivity | rewrite IH; reflexivity | exact IH].
Qed.

(** The walk of a list when every recursive call returns at once. *)
Lemma walk_entries_flat rec path indent :
  (forall p ind m, rec p ind m = ([], Returned)) ->
  forall files n,
    snd (walk_entries rec path indent files n) = Returned /\
    requests (fst (walk_entries rec path indent files n)) = [] /\
    stdout (fst (walk_entries rec path indent files n)) = listing indent files.
Proof.
  intros Hrec files. induction files as [|f rest IH]; intros n.
  - repeat split.
  - unfold walk_entries in *. cbn [walk_with listing]. unfold is_listed.
    destruct (Type_ f =? "file")%string; cbn [orb].
    + rewrite emit_line_andthen. cbn [fst snd requests stdout].
      destruct (IH n) as (H1 & H2 & H3). rewrite H1, H2, H3.
      unfold render_line. rewrite !string_app_assoc. repeat split.
    + destruct (Type_ f =? "dir")%string.
      * rewrite (andthen_returned _ _ n
                   [Out (indent ++ getFilePrefix (is_final rest));
                    Out (Name f ++ newline)]).
        2:{ rewrite emit_line_andthen, Hrec. reflexivity. }
        cbn [count_req fst snd app requests stdout].
        destruct (IH (n + 0)%nat) as (H1 & H2 & H3). rewrite H1, H2, H3.
        unfold render_line. rewrite !string_app_assoc. repeat split.
      * rewrite skip_andthen. apply IH.
Qed.

(** X10: at the depth limit ([level = maxDepth], below the largest [int]) a
    call that receives a list sends that one request only, returns, and
    prints one line for each file or directory of the list, in the order
    received, all at the same indent, the last element of the list being
    the one rendered as last; no directory is entered. *)
Theorem listing_at_depth_limit
    (w : World) (accessToken owner repo path indent : string)
    (level : Z) (fuel n : nat) (files : list File)
    (Hlevel : in_int level) (Hbelow : level < max_int)
    (Hurl : new_request_ok w (contents_url owner repo path) = true)
    (Hresp : api w n (contents_url owner repo path) ("Bearer " ++ accessToken)
             = BodyFiles files) :
  let r := fetch_fuel w (S fuel) accessToken owner repo path indent level
             level n in
  snd r = Returned /\
  requests (fst r) = [contents_url owner repo path] /\
  stdout (fst r) = listing indent files.
Proof.
  intros r. subst r.
  rewrite fetch_fuel_step by (assumption || lia).
  rewrite do_request_eq, Hresp. unfold on_response.
  rewrite range_loop_is_walk by reflexivity.
  cbn [fst snd requests stdout].
  destruct (walk_entries_flat
              (fun p ind =>
                 fetch_fuel w fuel accessToken owner repo p ind
                   (int_add level 1) level)
              path indent) with (files := files) (n := S n)
    as (H1 & H2 & H3).
  { intros p ind m. apply fetch_fuel_guard.
    rewrite int_add_small by (unfold in_int in Hlevel; lia). lia. }
  rewrite H1, H2, H3. repeat split.
Qed.

Lemma listing_at_depth_limit_witness :
  stdout (fst (fetch_fuel submodule_world 1 "t" "o" "r" "" "" 1 1 0%nat))
  = listing "" [mkFile "f" "file"; mkFile "d" "dir"; mkFile "m" "submodule"].
Proof.
  apply (listing_at_depth_limit submodule_world "t" "o" "r" "" "" 1 0 0
           [mkFile "f" "file"; mkFile "d" "dir"; mkFile "m" "submodule"]).
  - unfold in_int, min_int, max_int. lia.
  - unfold max_int. lia.
  - reflexivity.
  - reflexivity.
Defined.

(** ** Nesting *)

Lemma nested_within_app indent bound (t1 t2 : list event) :
  nested_within indent bound t1 -> nested_within indent bound t2 ->
  nested_within indent bound (t1 ++ t2).
Proof.
  intros H1 H2. induction H1 as [|url a tr _ IH|s name tr Hs _ IH];
    cbn [app]; [exact H2 | constructor; exact IH
               | constructor; [exact Hs | exact IH]].
Qed.

(** A line below a directory is a line of the parent walk, one
    continuation glyph further in. *)
Lemma line_prefix_below indent (b : bool) bound s :
  line_prefix (indent ++ getIndentPrefix b) bound s ->
  line_prefix indent (S bound) s.
Proof.
  intros (above & isLast & Hl & ->).
  exists (b :: above), isLast. split; [cbn [List.length]; lia|].
  cbn [map cat]. rewrite !string_app_assoc. reflexivity.
Qed.

Lemma nested_within_below indent (b : bool) bound tr :
  nested_within (indent ++ getIndentPrefix b) bound tr ->
  nested_within indent (S bound) tr.
Proof.
  intros H. induction H as [|url a tr _ IH|s name tr Hs _ IH];
    constructor; try assumption.
  apply line_prefix_below with (b := b). exact Hs.
Qed.

Lemma line_prefix_here indent bound isLast :
  line_prefix indent bound (indent ++ getFilePrefix isLast).
Proof.
  exists [], isLast. split; [cbn; lia | reflexivity].
Qed.

Lemma andthen_nested indent bound (c1 c2 : Run) n :
  nested_within indent bound (fst (c1 n)) ->
  (forall m, nested_within indent bound (fst (c2 m))) ->
  nested_within indent bound (fst ((c1 ;; c2) n)).
Proof.
  intros H1 H2. unfold andthen. destruct (c1 n) as [t1 s1]. cbn [fst] in H1.
  destruct s1; try exact H1.
  specialize (H2 (n + count_req t1)%nat).
  destruct (c2 (n + count_req t1)%nat) as [t2 s2]. cbn [fst] in *.
  apply nested_within_app; assumption.
Qed.

Lemma range_loop_nested rec path indent len bound :
  (forall p b m,
      nested_within indent bound (fst (rec p (indent ++ getIndentPrefix b) m))) ->
  forall files i n,
    nested_within indent bound (fst (range_loop rec path indent len i files n)).
Proof.
  intros Hrec files. induction files as [|f rest IH]; intros i n.
  - constructor.
  - rewrite range_loop_cons. apply andthen_nested; [|intros m; apply IH].
    destruct (Type_ f =? "file")%string.
    + rewrite emit_line_eq. cbn [fst].
      constructor; [apply line_prefix_here | constructor].
    + destruct (Type_ f =? "dir")%string; [|constructor].
      rewrite emit_line_andthen. cbn [fst].
      constructor; [apply line_prefix_here | apply Hrec].
Qed.

(** With [fuel] calls in hand, lines lie below at most [fuel - 1]
    directories. *)
Lemma fetch_fuel_nested w accessToken owner repo maxDepth fuel :
  forall path indent level n,
    nested_within indent (pred fuel)
      (fst (fetch_fuel w fuel accessToken owner repo path indent level
              maxDepth n)).
Proof.
  induction fuel as [|fuel IH]; intros path indent level n.
  - rewrite fetch_fuel_O. destruct (level >? maxDepth); constructor.
  - rewrite fetch_fuel_S. destruct (level >? maxDepth); [constructor|].
    destruct (negb (new_request_ok w (contents_url owner repo path)));
      [constructor|].
    rewrite do_request_eq. cbn [fst pred]. constructor.
    generalize
      (api w n (contents_url owner repo path) ("Bearer " ++ accessToken)).
    intros resp. destruct resp; try constructor.
    unfold on_response. apply range_loop_nested. intros p b m.
    destruct fuel as [|fuel'].
    + rewrite fetch_fuel_O.
      destruct (int_add level 1 >? maxDepth); constructor.
    + apply nested_within_below with (b := b). apply IH.
Qed.

(** The bound is a real one: a line three directories down is not within
    one. *)
Example deeper_line_is_not_nested :
  ~ nested_within "" 1 [Out "│   │   │   └── "; Out ("x" ++ newline)].
Proof.
  intros H. inversion H as [| |s name tr Hs _ E1]. subst.
  destruct Hs as (above & isLast & Hl & E).
  destruct above as [|b1 [|b2 above]]; cbn [List.length] in Hl; [| |lia];
    [destruct isLast | destruct b1, isLast]; discriminate E.
Qed.

(** X12: below the largest [int], a call of the fetcher ends, and its
    writes come in pairs, the first of each pair being the starting indent,
    at most [maxDepth - level] continuation glyphs and a branch glyph, the
    second a name and a newline: no line lies below more than
    [maxDepth - level] directories. *)
Theorem lines_are_nested_within_depth
    (w : World) (accessToken owner repo path indent : string)
    (level maxDepth : Z) (n : nat)
    (Hlevel : in_int level) (Hmax : maxDepth < max_int) :
  snd (fetchFilesAndFolders w accessToken owner repo path indent level
         maxDepth n) <> OutOfFuel /\
  nested_within indent (Z.to_nat (maxDepth - level))
    (fst (fetchFilesAndFolders w accessToken owner repo path indent level
            maxDepth n)).
Proof.
  unfold fetchFilesAndFolders. split.
  - apply fetch_fuel_enough; [assumption | assumption | lia].
  - replace (Z.to_nat (maxDepth - level))
      with (pred (depth_fuel level maxDepth)) by (unfold depth_fuel; lia).
    apply fetch_fuel_nested.
Qed.

Lemma lines_are_nested_within_depth_witness :
  nested_within "" (Z.to_nat (2 - 1))
    (fst (fetchFilesAndFolders nested_world "t" "o" "r" "" "" 1 2 0%nat)).
Proof.
  apply (lines_are_nested_within_depth nested_world "t" "o" "r" "" "" 1 2 0).
  - unfold in_int, min_int, max_int. lia.
  - unfold max_int. lia.
Defined.

(** ** Requests against lines *)

Lemma count_req_app (t1 t2 : list event) :
  count_req (t1 ++ t2) = (count_req t1 + count_req t2)%nat.
Proof.
  induction t1 as [|[u a|s] t1 IH]; cbn [count_req app];
    [reflexivity | rewrite IH; reflexivity | exact IH].
Qed.

Lemma count_out_app (t1 t2 : list event) :
  count_out (t1 ++ t2) = (count_out t1 + count_out t2)%nat.
Proof.
  induction t1 as [|[u a|s] t1 IH]; cbn [count_out app];
    [reflexivity | exact IH | rewrite IH; reflexivity].
Qed.

Lemma andthen_counts (c1 c2 : Run) n (k : nat) :
  (2 * count_req (fst (c1 n)) <= k + count_out (fst (c1 n)))%nat ->
  (forall m, (2 * count_req (fst (c2 m)) <= count_out (fst (c2 m)))%nat) ->
  (2 * count_req (fst ((c1 ;; c2) n)) <= k + count_out (fst ((c1 ;; c2) n)))%nat.
Proof.
  intros H1 H2. unfold andthen. destruct (c1 n) as [t1 s1]. cbn [fst] in H1.
  destruct s1; try exact H1.
  specialize (H2 (n + count_req t1)%nat).
  destruct (c2 (n + count_req t1)%nat) as [t2 s2]. cbn [fst] in *.
  rewrite count_req_app, count_out_app. lia.
Qed.

Lemma range_loop_counts rec path indent len :
  (forall p ind m,
      (2 * count_req (fst (rec p ind m)) <= 2 + count_out (fst (rec p ind m)))%nat) ->
  forall files i n,
    (2 * count_req (fst (range_loop rec path indent len i files n))
     <= count_out (fst (range_loop rec path indent len i files n)))%nat.
Proof.
  intros Hrec files. induction files as [|f rest IH]; intros i n.
  - cbn. lia.
  - rewrite range_loop_cons.
    apply (andthen_counts _ _ n 0); [|intros m; apply IH].
    destruct (Type_ f =? "file")%string; [cbn; lia|].
    destruct (Type_ f =? "dir")%string; [|cbn; lia].
    rewrite emit_line_andthen. cbn [fst count_req count_out].
    specialize (Hrec (path ++ "/" ++ Name f)
                  (indent ++ getIndentPrefix (i =? len - 1)) n).
    lia.
Qed.

(** X13: a call of the fetcher sends at most one request more than it has
    printed lines (a line being two writes): beyond the first, every request
    is for a directory whose line has been printed. *)
Theorem requests_are_bounded_by_lines
    (w : World) (fuel : nat) (accessToken owner repo path indent : string)
    (level maxDepth : Z) (n : nat) :
  (2 * count_req (fst (fetch_fuel w fuel accessToken owner repo path indent
                         level maxDepth n))
   <= 2 + count_out (fst (fetch_fuel w fuel accessToken owner repo path indent
                            level maxDepth n)))%nat.
Proof.
  revert path indent level n.
  induction fuel as [|fuel IH]; intros path indent level n.
  - rewrite fetch_fuel_O. destruct (level >? maxDepth); cbn; lia.
  - rewrite fetch_fuel_S. destruct (level >? maxDepth); [cbn; lia|].
    destruct (negb (new_request_ok w (contents_url owner repo path)));
      [cbn; lia|].
    rewrite do_request_eq. cbn [fst count_req count_out].
    generalize
      (api w n (contents_url owner repo path) ("Bearer " ++ accessToken)).
    intros resp. destruct resp; try (cbn; lia).
    unfold on_response.
    pose proof (range_loop_counts
                  (fun p ind =>
                     fetch_fuel w fuel accessToken owner repo p ind
                       (int_add level 1) maxDepth)
                  path indent (Z.of_nat (List.length files))
                  (fun p ind m => IH p ind (int_add level 1) m)
                  files 0 (S n)) as H.
    lia.
Qed.
